(** * Flux Rounds: a shallow embedding of the game engine

    The TypeScript sources modelled here are
    - [src/game/types.ts]     : [Suit], [MeldType], [Rank], [Card], [RoundRule]
    - [src/game/rules.ts]     : [FiveCrownsCompat], [getRoundRule], [isWildRank], [scoreHand]
    - [src/game/validator.ts] : [validateMeld], [validateBook], [validateRun], [validateLayoff]
    - [src/game/scoring.ts]   : [calculateHandScore]
    - [src/game/deck.ts]      : [mulberry32], [shuffle], [createDecks], [deal], pile helpers
    - [src/game/state.ts]     : [GameState], [newGame], [endRound], [nextRound],
                                [triggerOutIfNeeded], [consumeOutTurnIfNeeded], [afterDiscard]
    - [src/components/GameView.tsx] : the action handlers ([onSubmitMeld], ...)

    JavaScript numbers that stay small integers are modelled as [Z]; ranks are
    [Z] (the type [Rank] restricts them to 0 and 3..13, the proofs do not need
    it).  A JavaScript exception is modelled by [None]. *)

From Stdlib Require Import ZArith Lia String Bool Btauto.
From stdpp Require Import base list sorting strings pretty.

Open Scope Z_scope.

(* ------------------------------------------------------------------ *)
(** ** types.ts *)

Inductive Suit := STARS | HEARTS | CLUBS | SPADES | DIAMONDS.

Definition Suit_eqb (a b : Suit) : bool :=
  match a, b with
  | STARS, STARS | HEARTS, HEARTS | CLUBS, CLUBS
  | SPADES, SPADES | DIAMONDS, DIAMONDS => true
  | _, _ => false
  end.

Definition suit_name (s : Suit) : string :=
  match s with
  | STARS => "STARS" | HEARTS => "HEARTS" | CLUBS => "CLUBS"
  | SPADES => "SPADES" | DIAMONDS => "DIAMONDS"
  end.

Inductive MeldType := BOOK | RUN.

Record Card := mkCard {
  card_id : string;
  suit : Suit;
  rank : Z;
  deckIndex : Z
}.

Record RoundRule := mkRoundRule {
  rule_round : Z;
  handSize : Z;
  wildRank : Z
}.

(* ------------------------------------------------------------------ *)
(** ** rules.ts *)

Module FiveCrownsCompat.
Definition suits : list Suit := [STARS; HEARTS; CLUBS; SPADES; DIAMONDS].
Definition ranks : list Z := [3; 4; 5; 6; 7; 8; 9; 10; 11; 12; 13].
Definition decks : Z := 2.
Definition jokersPerDeck : Z := 3.
Definition totalRounds : Z := 11.
Definition jokerPenalty : Z := 50.
Definition wildPenalty : Z := 20.
End FiveCrownsCompat.

(** [getRoundRule] throws outside [1, totalRounds]. *)
Definition getRoundRule (round : Z) : option RoundRule :=
  if (round <? 1) || (FiveCrownsCompat.totalRounds <? round) then None
  else let handSize := round + 2 in
       Some (mkRoundRule round handSize handSize).

Definition isJoker (r : Z) : bool := r =? 0.

Definition isWildRank (r : Z) (rule : RoundRule) : bool :=
  isJoker r || (r =? wildRank rule).

(** [for (const r of ranks) { if (r === 0) ... else if (r === rule.wildRank) ... else ... }] *)
Definition scoreHand (ranks : list Z) (rule : RoundRule) : Z :=
  fold_left (fun total r =>
      if r =? 0 then total + FiveCrownsCompat.jokerPenalty
      else if r =? wildRank rule then total + FiveCrownsCompat.wildPenalty
      else total + r) ranks 0.


(** rules.ts: [rankLabel] *)
Definition rankLabel (r : Z) : string :=
  if r =? 0 then "JOKER"
  else if r <=? 10 then pretty r
  else if r =? 11 then "J"
  else if r =? 12 then "Q"
  else "K".

(* ------------------------------------------------------------------ *)
(** ** scoring.ts *)

(** [hand.reduce((total, card) => total + (isWildRank(card.rank, rule) ? wildPenalty : card.rank), 0)] *)
Definition calculateHandScore (hand : list Card) (rule : RoundRule)
    (wildPenalty : Z) : Z :=
  fold_left (fun total card =>
      let points := if isWildRank (rank card) rule then wildPenalty else rank card in
      total + points) hand 0.

(** The default argument [wildPenalty = 20]. *)
Definition calculateHandScore_default (hand : list Card) (rule : RoundRule) : Z :=
  calculateHandScore hand rule 20.

(* ------------------------------------------------------------------ *)
(** ** validator.ts *)

Inductive ValidationResult := Ok | Err (reason : string).

Definition is_ok (r : ValidationResult) : bool :=
  match r with Ok => true | Err _ => false end.

(** [Array.prototype.sort] with the comparator [(a, b) => a - b]: the result
    is the ascending permutation of the input; insertion sort computes it. *)
Fixpoint insert_num (x : Z) (l : list Z) : list Z :=
  match l with
  | [] => [x]
  | y :: l' => if y <=? x then y :: insert_num x l' else x :: l
  end.

Fixpoint sort_num (l : list Z) : list Z :=
  match l with
  | [] => []
  | x :: l' => insert_num x (sort_num l')
  end.

Definition nonWildOf (cards : list Card) (rule : RoundRule) : list Card :=
  List.filter (fun c => negb (isWildRank (rank c) rule)) cards.

Definition validateBook (cards : list Card) (rule : RoundRule) : ValidationResult :=
  match nonWildOf cards rule with
  | [] => Ok
  | c0 :: _ =>
      let target := rank c0 in
      if forallb (fun c => rank c =? target) (nonWildOf cards rule) then Ok
      else Err "Must share the same rank"
  end.

(** [for (let i = 1; i < ranks.length; i++) if (ranks[i] === ranks[i - 1]) return ...] *)
Fixpoint has_adjacent_dup (l : list Z) : bool :=
  match l with
  | x :: (y :: _) as l' => (y =? x) || has_adjacent_dup l'
  | _ => false
  end.

(** The gap loop: [None] is the early return on [gap < 0], otherwise the
    accumulated [needed]. *)
Fixpoint gaps_needed (l : list Z) (needed : Z) : option Z :=
  match l with
  | prev :: (cur :: _) as l' =>
      let gap := cur - prev - 1 in
      if gap <? 0 then None else gaps_needed l' (needed + gap)
  | _ => Some needed
  end.

Definition validateRun (cards : list Card) (rule : RoundRule) : ValidationResult :=
  match nonWildOf cards rule with
  | [] => Ok
  | c0 :: _ =>
      let nonWild := nonWildOf cards rule in
      let s := suit c0 in
      if negb (forallb (fun c => Suit_eqb (suit c) s) nonWild) then Err "Must be a single suit"
      else
        let ranks := sort_num (map rank nonWild) in
        if has_adjacent_dup ranks then Err "Must not contain duplicate ranks"
        else
          let wildCount := Z.of_nat (length cards) - Z.of_nat (length nonWild) in
          match gaps_needed ranks 0 with
          | None => Err "Must have valid rank order"
          | Some needed =>
              if wildCount <? needed then Err "Must have enough wilds to fill gaps"
              else Ok
          end
  end.

Definition validateMeld (cards : list Card) (type : MeldType) (rule : RoundRule)
    : ValidationResult :=
  if (Z.of_nat (length cards) <? 3) then Err "Must select at least 3 cards"
  else match type with
       | BOOK => validateBook cards rule
       | RUN => validateRun cards rule
       end.

Definition validateLayoff (meldType : MeldType) (meldCards addedCards : list Card)
    (rule : RoundRule) : ValidationResult :=
  if Nat.eqb (length addedCards) 0 then Err "Must select cards to layoff"
  else validateMeld (meldCards ++ addedCards) meldType rule.

(* ------------------------------------------------------------------ *)
(** ** deck.ts: mulberry32 *)

(** JavaScript's [ToUint32] and [ToInt32] on an integral number. *)
Definition toUint32 (z : Z) : Z := z mod 2 ^ 32.

Definition toInt32 (z : Z) : Z :=
  let u := toUint32 z in if u <? 2 ^ 31 then u else u - 2 ^ 32.

(** The operators [^], [|], [>>>] and [Math.imul] on integral numbers. *)
Definition js_xor (a b : Z) : Z := toInt32 (Z.lxor (toUint32 a) (toUint32 b)).
Definition js_or (a b : Z) : Z := toInt32 (Z.lor (toUint32 a) (toUint32 b)).
Definition js_ushr (a : Z) (n : Z) : Z := Z.shiftr (toUint32 a) n.
Definition imul (a b : Z) : Z := toInt32 (toUint32 a * toUint32 b).

(** Rounding of a non-negative integer to the nearest IEEE-754 double (53-bit
    significand, ties to even): the value [t += 0x6D2B79F5] stores when [t]
    holds a non-negative integral double. *)
Definition dbl_round (n : Z) : Z :=
  if n <? 2 ^ 53 then n
  else
    let e := Z.log2 n - 52 in
    let q := n / 2 ^ e in
    let r := n mod 2 ^ e in
    let half := 2 ^ (e - 1) in
    if r <? half then q * 2 ^ e
    else if half <? r then (q + 1) * 2 ^ e
    else if Z.even q then q * 2 ^ e else (q + 1) * 2 ^ e.

Definition mulberry_inc : Z := 1831565813. (* 0x6D2B79F5 *)

(** The body of the closure after [t += 0x6D2B79F5], given the new [t]; the
    result is the numerator of [((x ^ (x >>> 14)) >>> 0) / 4294967296]. *)
Definition mulberry32_value (t : Z) : Z :=
  let x := imul (js_xor t (js_ushr t 15)) (js_or 1 t) in
  let x := js_xor x (x + imul (js_xor x (js_ushr x 7)) (js_or 61 x)) in
  toUint32 (js_xor x (js_ushr x 14)).

(** One call of the closure on the captured [t]: the returned numerator and
    the new [t]. *)
Definition mulberry32_next (t : Z) : Z * Z :=
  let t' := dbl_round (t + mulberry_inc) in (mulberry32_value t', t').

Fixpoint mulberry32_calls (t : Z) (n : nat) : list Z :=
  match n with
  | O => []
  | S n' => let '(x, t') := mulberry32_next t in x :: mulberry32_calls t' n'
  end.

(** [mulberry32(seed)] called [n] times: [let t = seed >>> 0], then the
    numerators (over [2^32]) of the [n] returned values. *)
Definition mulberry32 (seed : Z) (n : nat) : list Z :=
  mulberry32_calls (toUint32 seed) n.

(* ------------------------------------------------------------------ *)
(** ** deck.ts: shuffle, createDecks, deal, piles *)

(** Where an [Rng] comes from: a fresh [mulberry32(seed)], or the ambient
    [Math.random].  A shuffle only uses [floor(rng() * (i + 1))] for the
    indices [i = n - 1, ..., 1]; [Ambient pick] gives that index for each [i]
    (any [pick i <= i] is possible with [Math.random]). *)
Inductive RngSource :=
  | Seeded (seed : Z)
  | Ambient (pick : nat -> nat).

(** For a seeded generator the call for index [i] of a shuffle of [n]
    elements is call number [n - 1 - i]; its value [x / 2^32] times [i + 1]
    is exact in a double, so the floor is an integer division. *)
Definition rng_pick (src : RngSource) (n : nat) : nat -> nat :=
  match src with
  | Seeded seed => fun i =>
      let x := nth (n - 1 - i) (mulberry32 seed n) 0 in
      Z.to_nat (x * Z.of_nat (S i) / 2 ^ 32)
  | Ambient pick => pick
  end.

(** [[a[i], a[j]] = [a[j], a[i]]] for in-range [i] and [j]. *)
Definition swap {A} (a : list A) (i j : nat) : list A :=
  match a !! i, a !! j with
  | Some x, Some y => <[j := x]> (<[i := y]> a)
  | _, _ => a
  end.

Fixpoint shuffle_loop {A} (pick : nat -> nat) (i : nat) (a : list A) : list A :=
  match i with
  | O => a
  | S i' => shuffle_loop pick i' (swap a i (pick i))
  end.

(** [for (let i = a.length - 1; i > 0; i--) { const j = ...; swap }] *)
Definition shuffle {A} (arr : list A) (src : RngSource) : list A :=
  shuffle_loop (rng_pick src (length arr)) (length arr - 1) arr.

Definition normal_id (d : Z) (s : Suit) (r : Z) (n : nat) : string :=
  "D" +:+ pretty d +:+ "-" +:+ suit_name s +:+ "-" +:+ pretty r +:+ "-" +:+ pretty n.

Definition joker_id (d : Z) (n : nat) : string :=
  "D" +:+ pretty d +:+ "-JOKER-0-" +:+ pretty n.

(** [for (const rank of ranks) out.push({ id: `D${d}-${suit}-${rank}-${out.length}`, ... })] *)
Fixpoint push_ranks (d : Z) (s : Suit) (ranks : list Z) (out : list Card) : list Card :=
  match ranks with
  | [] => out
  | r :: rs => push_ranks d s rs (out ++ [mkCard (normal_id d s r (length out)) s r d])
  end.

Fixpoint push_suits (d : Z) (suits : list Suit) (ranks : list Z) (out : list Card) : list Card :=
  match suits with
  | [] => out
  | s :: ss => push_suits d ss ranks (push_ranks d s ranks out)
  end.

(** [for (let j = 1; j <= jokersPerDeck; j++) out.push(...)]: [k] iterations. *)
Fixpoint push_jokers (d : Z) (k : nat) (out : list Card) : list Card :=
  match k with
  | O => out
  | S k' => push_jokers d k' (out ++ [mkCard (joker_id d (length out)) STARS 0 d])
  end.

(** [for (let d = 1; d <= decks; d++)]: [k] iterations starting at [d]. *)
Fixpoint push_decks (k : nat) (d : Z) (suits : list Suit) (ranks : list Z)
    (jokersPerDeck : Z) (out : list Card) : list Card :=
  match k with
  | O => out
  | S k' => push_decks k' (d + 1) suits ranks jokersPerDeck
              (push_jokers d (Z.to_nat jokersPerDeck) (push_suits d suits ranks out))
  end.

Definition createDecks (suits : list Suit) (ranks : list Z) (decks jokersPerDeck : Z)
    : list Card :=
  push_decks (Z.to_nat decks) 1 suits ranks jokersPerDeck [].

Definition defaultDeck : list Card :=
  createDecks FiveCrownsCompat.suits FiveCrownsCompat.ranks
    FiveCrownsCompat.decks FiveCrownsCompat.jokersPerDeck.

(** One pass of [for (let p = 0; p < playerCount; p++) hands[p].push(deck[index++])].
    Past the end of the deck JavaScript would push [undefined]; the model
    fails there instead ([None]). *)
Fixpoint give_each (deck : list Card) (hands : list (list Card)) (index : nat)
    : option (list (list Card) * nat) :=
  match hands with
  | [] => Some ([], index)
  | h :: hs =>
      c ← deck !! index;
      '(hs', index') ← give_each deck hs (S index);
      Some ((h ++ [c]) :: hs', index')
  end.

Fixpoint deal_rounds (deck : list Card) (hands : list (list Card)) (index : nat) (k : nat)
    : option (list (list Card) * nat) :=
  match k with
  | O => Some (hands, index)
  | S k' =>
      '(hands', index') ← give_each deck hands index;
      deal_rounds deck hands' index' k'
  end.

Record Dealt := mkDealt {
  dealt_hands : list (list Card);
  dealt_drawPile : list Card;
  dealt_discardPile : list Card
}.

Definition deal (deck : list Card) (playerCount : nat) (handSize : Z) (startDiscard : bool)
    : option Dealt :=
  '(hands, index) ← deal_rounds deck (repeat [] playerCount) 0 (Z.to_nat handSize);
  let remaining := drop index deck in
  match remaining with
  | c :: rest => if startDiscard then Some (mkDealt hands rest [c])
                 else Some (mkDealt hands remaining [])
  | [] => Some (mkDealt hands remaining [])
  end.

(** [drawOne] throws on an empty pile. *)
Definition drawOne (drawPile : list Card) : option (Card * list Card) :=
  match drawPile with
  | [] => None
  | c :: rest => Some (c, rest)
  end.

(** [takeDiscardTop] removes the last card; throws on an empty pile. *)
Definition takeDiscardTop (discardPile : list Card) : option (Card * list Card) :=
  match last discardPile with
  | None => None
  | Some c => Some (c, removelast discardPile)
  end.

Definition discardOne (discardPile : list Card) (card : Card) : list Card :=
  discardPile ++ [card].

Definition recycleDiscardIntoDraw (drawPile discardPile : list Card) (src : RngSource)
    : list Card * list Card :=
  if negb (Nat.eqb (length drawPile) 0) then (drawPile, discardPile)
  else if Nat.leb (length discardPile) 1 then (drawPile, discardPile)
  else match last discardPile with
       | Some top => (shuffle (removelast discardPile) src, [top])
       | None => (drawPile, discardPile)
       end.

(* ------------------------------------------------------------------ *)
(** ** state.ts: the game state *)

Record PlayerState := mkPlayer {
  player_id : string;
  name : string;
  hand : list Card;
  score : Z
}.

Record Meld := mkMeld {
  meld_id : string;
  meld_playerId : string;
  meld_type : MeldType;
  meld_cards : list Card;
  meld_round : Z
}.

Inductive TurnPhase := NEED_DRAW | NEED_DISCARD.

Inductive Status := PLAYING | ROUND_END | GAME_OVER.

Definition Status_eqb (a b : Status) : bool :=
  match a, b with
  | PLAYING, PLAYING | ROUND_END, ROUND_END | GAME_OVER, GAME_OVER => true
  | _, _ => false
  end.

(** Optional fields ([field?: T]) are [option T]; [undefined] is [None]. *)
Record GameState := mkState {
  round : Z;
  rule : RoundRule;
  players : list PlayerState;
  currentPlayerIndex : nat;
  drawPile : list Card;
  discardPile : list Card;
  melds : list Meld;
  selectedCardIds : list string;
  turnPhase : TurnPhase;
  outTriggeredByPlayerId : option string;
  turnsRemainingAfterOut : option Z;
  status : Status;
  message : option string
}.

(** Spread updates [{ ...s, field: v }], one per field. *)
Definition set_round v s := mkState v (rule s) (players s) (currentPlayerIndex s) (drawPile s) (discardPile s) (melds s) (selectedCardIds s) (turnPhase s) (outTriggeredByPlayerId s) (turnsRemainingAfterOut s) (status s) (message s).
Definition set_rule v s := mkState (round s) v (players s) (currentPlayerIndex s) (drawPile s) (discardPile s) (melds s) (selectedCardIds s) (turnPhase s) (outTriggeredByPlayerId s) (turnsRemainingAfterOut s) (status s) (message s).
Definition set_players v s := mkState (round s) (rule s) v (currentPlayerIndex s) (drawPile s) (discardPile s) (melds s) (selectedCardIds s) (turnPhase s) (outTriggeredByPlayerId s) (turnsRemainingAfterOut s) (status s) (message s).
Definition set_currentPlayerIndex v s := mkState (round s) (rule s) (players s) v (drawPile s) (discardPile s) (melds s) (selectedCardIds s) (turnPhase s) (outTriggeredByPlayerId s) (turnsRemainingAfterOut s) (status s) (message s).
Definition set_drawPile v s := mkState (round s) (rule s) (players s) (currentPlayerIndex s) v (discardPile s) (melds s) (selectedCardIds s) (turnPhase s) (outTriggeredByPlayerId s) (turnsRemainingAfterOut s) (status s) (message s).
Definition set_discardPile v s := mkState (round s) (rule s) (players s) (currentPlayerIndex s) (drawPile s) v (melds s) (selectedCardIds s) (turnPhase s) (outTriggeredByPlayerId s) (turnsRemainingAfterOut s) (status s) (message s).
Definition set_melds v s := mkState (round s) (rule s) (players s) (currentPlayerIndex s) (drawPile s) (discardPile s) v (selectedCardIds s) (turnPhase s) (outTriggeredByPlayerId s) (turnsRemainingAfterOut s) (status s) (message s).
Definition set_selectedCardIds v s := mkState (round s) (rule s) (players s) (currentPlayerIndex s) (drawPile s) (discardPile s) (melds s) v (turnPhase s) (outTriggeredByPlayerId s) (turnsRemainingAfterOut s) (status s) (message s).
Definition set_turnPhase v s := mkState (round s) (rule s) (players s) (currentPlayerIndex s) (drawPile s) (discardPile s) (melds s) (selectedCardIds s) v (outTriggeredByPlayerId s) (turnsRemainingAfterOut s) (status s) (message s).
Definition set_outTriggeredByPlayerId v s := mkState (round s) (rule s) (players s) (currentPlayerIndex s) (drawPile s) (discardPile s) (melds s) (selectedCardIds s) (turnPhase s) v (turnsRemainingAfterOut s) (status s) (message s).
Definition set_turnsRemainingAfterOut v s := mkState (round s) (rule s) (players s) (currentPlayerIndex s) (drawPile s) (discardPile s) (melds s) (selectedCardIds s) (turnPhase s) (outTriggeredByPlayerId s) v (status s) (message s).
Definition set_status v s := mkState (round s) (rule s) (players s) (currentPlayerIndex s) (drawPile s) (discardPile s) (melds s) (selectedCardIds s) (turnPhase s) (outTriggeredByPlayerId s) (turnsRemainingAfterOut s) v (message s).
Definition set_message v s := mkState (round s) (rule s) (players s) (currentPlayerIndex s) (drawPile s) (discardPile s) (melds s) (selectedCardIds s) (turnPhase s) (outTriggeredByPlayerId s) (turnsRemainingAfterOut s) (status s) v.

(** JavaScript truthiness of an optional string: [undefined] and the empty
    string are falsy. *)
Definition truthy (o : option string) : bool :=
  match o with
  | Some str => negb (String.eqb str EmptyString)
  | None => false
  end.

Definition set_hand (h : list Card) (p : PlayerState) : PlayerState :=
  mkPlayer (player_id p) (name p) h (score p).

(** [players.map((p, idx) => idx === i ? f(p) : p)] *)
Fixpoint map_at {A} (f : A -> A) (i : nat) (l : list A) : list A :=
  match l, i with
  | [], _ => []
  | x :: l', O => f x :: l'
  | x :: l', S i' => x :: map_at f i' l'
  end.

(** [[...players].sort((a, b) => a.score - b.score)], a stable sort, and its
    first element's name. *)
Fixpoint insert_by_score (p : PlayerState) (l : list PlayerState) : list PlayerState :=
  match l with
  | [] => [p]
  | q :: l' => if score q <=? score p then q :: insert_by_score p l' else p :: l
  end.

Definition computeWinnerName (ps : list PlayerState) : string :=
  match fold_left (fun acc p => insert_by_score p acc) ps [] with
  | p :: _ => name p
  | [] => "Unknown"
  end.

Definition endRound (state : GameState) : GameState :=
  let updatedPlayers := map (fun p =>
      mkPlayer (player_id p) (name p) (hand p)
        (score p + scoreHand (map rank (hand p)) (rule state))) (players state) in
  let isGameOver := FiveCrownsCompat.totalRounds <=? round state in
  set_turnsRemainingAfterOut None
  (set_outTriggeredByPlayerId None
  (set_message (Some (if isGameOver
                      then "Game over. Winner: " +:+ computeWinnerName updatedPlayers
                      else "Round " +:+ pretty (round state) +:+ " ended."))
  (set_status (if isGameOver then GAME_OVER else ROUND_END)
  (set_turnPhase NEED_DRAW
  (set_selectedCardIds []
  (set_players updatedPlayers state)))))).

(** The [newGame] / [nextRound] options. *)
Record RoundOptions := mkRoundOptions {
  opt_seed : option Z;
  opt_startDiscard : option bool
}.

Definition options_rng (o : RoundOptions) (ambient : nat -> nat) : RngSource :=
  match opt_seed o with Some seed => Seeded seed | None => Ambient ambient end.

Definition nextRound (state : GameState) (o : RoundOptions) (ambient : nat -> nat)
    : option GameState :=
  if FiveCrownsCompat.totalRounds <=? round state then
    Some (set_message (Some ("Game over. Winner: " +:+ computeWinnerName (players state)))
           (set_status GAME_OVER state))
  else
    let round := round state + 1 in
    rule ← getRoundRule round;
    let deck := defaultDeck in
    let shuffled := shuffle deck (options_rng o ambient) in
    d ← deal shuffled (length (players state)) (handSize rule)
          (default true (opt_startDiscard o));
    let players := zip_with set_hand (dealt_hands d) (players state) in
    Some (mkState round rule players (currentPlayerIndex state)
            (dealt_drawPile d) (dealt_discardPile d) [] [] NEED_DRAW None None PLAYING
            (Some ("Round " +:+ pretty round +:+ " started. Wild Rank: " +:+ pretty (wildRank rule)))).

Definition triggerOutIfNeeded (state : GameState) (playerId : string) : GameState :=
  if truthy (outTriggeredByPlayerId state) then state
  else
    let others := Z.of_nat (length (players state)) - 1 in
    set_message (Some (playerId +:+ " went out! Others have one final turn each."))
    (set_turnsRemainingAfterOut (Some others)
    (set_outTriggeredByPlayerId (Some playerId) state)).

Definition consumeOutTurnIfNeeded (state : GameState) : GameState :=
  if negb (truthy (outTriggeredByPlayerId state)) then state
  else match turnsRemainingAfterOut state with
       | None => state
       | Some k =>
           let next := k - 1 in
           if next <=? 0 then
             endRound (set_message (Some ("Final turns completed. Scoring round "
                                          +:+ pretty (round state) +:+ "...")) state)
           else set_turnsRemainingAfterOut (Some next) state
       end.

(** [(s.currentPlayerIndex + 1) % s.players.length]; the game has at least
    two players, so the divisor is never 0. *)
Definition advancePlayer (s : GameState) : GameState :=
  let nextPlayerIndex := Nat.modulo (S (currentPlayerIndex s)) (length (players s)) in
  set_turnPhase NEED_DRAW (set_currentPlayerIndex nextPlayerIndex s).

Definition afterDiscard (state : GameState) (playerId : string) (newHandLength : nat)
    : GameState :=
  let s := if Nat.eqb newHandLength 0 && negb (truthy (outTriggeredByPlayerId state))
           then triggerOutIfNeeded state playerId else state in
  if truthy (outTriggeredByPlayerId s) &&
     negb (String.eqb (default EmptyString (outTriggeredByPlayerId s)) playerId)
  then
    let s := consumeOutTurnIfNeeded s in
    if negb (Status_eqb (status s) PLAYING) then s (* round ended *)
    else advancePlayer s
  else advancePlayer s.

Record NewGameOptions := mkNewGameOptions {
  opt_playerNames : option (list string);
  ng_seed : option Z;
  ng_startDiscard : option bool
}.

(** [names.map((name, i) => ({ id: `P${i + 1}`, name, hand: hands[i], score: 0 }))] *)
Fixpoint mk_players (i : nat) (names : list string) (hands : list (list Card))
    : list PlayerState :=
  match names with
  | [] => []
  | nm :: names' =>
      mkPlayer ("P" +:+ pretty (S i)) nm (default [] (hands !! i)) 0
      :: mk_players (S i) names' hands
  end.

Definition newGame (o : NewGameOptions) (ambient : nat -> nat) : option GameState :=
  let round := 1 in
  rule ← getRoundRule round;
  let names := default ["Player 1"; "Player 2"] (opt_playerNames o) in
  if Nat.ltb (length names) 2 then None (* "Need at least 2 players" *)
  else
    let rng := match ng_seed o with Some seed => Seeded seed | None => Ambient ambient end in
    let shuffled := shuffle defaultDeck rng in
    d ← deal shuffled (length names) (handSize rule) (default true (ng_startDiscard o));
    Some (mkState round rule (mk_players 0 names (dealt_hands d)) 0
            (dealt_drawPile d) (dealt_discardPile d) [] [] NEED_DRAW None None PLAYING
            (Some "Game started. Draw 1 card to begin your turn.")).

(* ------------------------------------------------------------------ *)
(** ** GameView.tsx: the action handlers

    The current [GameView] (the one that delegates to [afterDiscard]).  Each
    handler is [if (!guard) return; setState((prev) => ...)]: the guard and
    the updater are evaluated on the same state.  [None] is a [TypeError] or a
    thrown [Error]. *)

Definition canAct (s : GameState) : bool := Status_eqb (status s) PLAYING.
Definition phase_is (ph : TurnPhase) (s : GameState) : bool :=
  match ph, turnPhase s with
  | NEED_DRAW, NEED_DRAW | NEED_DISCARD, NEED_DISCARD => true
  | _, _ => false
  end.
Definition canDraw (s : GameState) : bool := canAct s && phase_is NEED_DRAW s.
Definition canDiscard (s : GameState) : bool := canAct s && phase_is NEED_DISCARD s.
Definition canMeld (s : GameState) : bool := canAct s && phase_is NEED_DISCARD s.

(** [prev.players[prev.currentPlayerIndex]] *)
Definition current_player (s : GameState) : option PlayerState :=
  players s !! currentPlayerIndex s.

(** [new Map(hand.map((c) => [c.id, c])).get(id)]: the last card with that id. *)
Definition hand_map_get (hand : list Card) (id : string) : option Card :=
  find (fun c => String.eqb (card_id c) id) (rev hand).

(** [selectedCardIds.map((id) => handMap.get(id)).filter(Boolean)] *)
Definition selected_from_hand (hand : list Card) (ids : list string) : list Card :=
  omap (hand_map_get hand) ids.

(** [hand.filter((c) => !remove.has(c.id))] with [remove = new Set(cards.map((c) => c.id))]. *)
Definition remove_cards (hand cards : list Card) : list Card :=
  List.filter (fun c => negb (existsb (String.eqb (card_id c)) (map card_id cards))) hand.

Definition meld_type_name (t : MeldType) : string :=
  match t with BOOK => "BOOK" | RUN => "RUN" end.

Definition suitOrderIndex (s : Suit) : Z :=
  match s with STARS => 0 | HEARTS => 1 | CLUBS => 2 | SPADES => 3 | DIAMONDS => 4 end.

(** A stable sort by a comparator returning a number ([Array.prototype.sort]). *)
Fixpoint insert_by {A} (cmp : A -> A -> Z) (x : A) (l : list A) : list A :=
  match l with
  | [] => [x]
  | y :: l' => if cmp y x <=? 0 then y :: insert_by cmp x l' else x :: l
  end.

Definition stable_sort {A} (cmp : A -> A -> Z) (l : list A) : list A :=
  fold_left (fun acc x => insert_by cmp x acc) l [].

Definition sortByRankThenSuit (hand : list Card) : list Card :=
  stable_sort (fun a b => if negb (rank a =? rank b) then rank a - rank b
                          else suitOrderIndex (suit a) - suitOrderIndex (suit b)) hand.

Definition sortBySuitThenRank (hand : list Card) : list Card :=
  stable_sort (fun a b => let sa := suitOrderIndex (suit a) in
                          let sb := suitOrderIndex (suit b) in
                          if negb (sa =? sb) then sa - sb else rank a - rank b) hand.

Definition onToggleSelect (cardId : string) (s : GameState) : option GameState :=
  if negb (canAct s) then Some s
  else
    let has := existsb (String.eqb cardId) (selectedCardIds s) in
    Some (set_selectedCardIds
            (if has then List.filter (fun id => negb (String.eqb id cardId)) (selectedCardIds s)
             else selectedCardIds s ++ [cardId]) s).

Definition onClearSelection (s : GameState) : option GameState :=
  Some (set_selectedCardIds [] s).

Definition onSortRank (s : GameState) : option GameState :=
  if negb (canAct s) then Some s
  else Some (set_message (Some "Sorted hand: Rank -> Suit")
         (set_players (map_at (fun p => set_hand (sortByRankThenSuit (hand p)) p)
                         (currentPlayerIndex s) (players s)) s)).

Definition onSortSuit (s : GameState) : option GameState :=
  if negb (canAct s) then Some s
  else Some (set_message (Some "Sorted hand: Suit -> Rank")
         (set_players (map_at (fun p => set_hand (sortBySuitThenRank (hand p)) p)
                         (currentPlayerIndex s) (players s)) s)).

Definition onDrawFromDeck (ambient : nat -> nat) (s : GameState) : option GameState :=
  if negb (canDraw s) then Some s
  else
    let '(drawPile0, discardPile0) :=
      if Nat.eqb (length (drawPile s)) 0
      then recycleDiscardIntoDraw (drawPile s) (discardPile s) (Ambient ambient)
      else (drawPile s, discardPile s) in
    '(card, drawPile1) ← drawOne drawPile0;
    let ps := map_at (fun p => set_hand (hand p ++ [card]) p) (currentPlayerIndex s) (players s) in
    me ← ps !! currentPlayerIndex s;
    Some (set_message (Some (name me +:+ " drew a card. Now discard 1 card."))
         (set_turnPhase NEED_DISCARD
         (set_discardPile discardPile0
         (set_drawPile drawPile1
         (set_players ps s))))).

Definition onDrawFromDiscard (s : GameState) : option GameState :=
  if negb (canDraw s) then Some s
  else if Nat.eqb (length (discardPile s)) 0 then
    Some (set_message (Some "Discard pile is empty.") s)
  else
    '(card, rest) ← takeDiscardTop (discardPile s);
    let ps := map_at (fun p => set_hand (hand p ++ [card]) p) (currentPlayerIndex s) (players s) in
    me ← ps !! currentPlayerIndex s;
    Some (set_message (Some (name me +:+ " took the top discard. Now discard 1 card."))
         (set_turnPhase NEED_DISCARD
         (set_discardPile rest
         (set_players ps s)))).

Definition keep_one_msg : string := "Must keep 1 card to discard. (Go out happens on discard.)".

(** [now] is [Date.now()], used in the new meld's id. *)
Definition onSubmitMeld (now : Z) (s : GameState) : option GameState :=
  if negb (canMeld s) then Some s
  else
    me ← current_player s;
    let cards := selected_from_hand (hand me) (selectedCardIds s) in
    if Nat.eqb (length cards) 0 then Some (set_message (Some "Select cards first.") s)
    else
      let '(type, result) :=
        let r := validateMeld cards BOOK (rule s) in
        if is_ok r then (BOOK, r) else (RUN, validateMeld cards RUN (rule s)) in
      match result with
      | Err reason => Some (set_message (Some ("Invalid meld: " +:+ reason)) s)
      | Ok =>
          let newHand := remove_cards (hand me) cards in
          if Nat.ltb (length newHand) 1 then Some (set_message (Some keep_one_msg) s)
          else
            let ps := map_at (set_hand newHand) (currentPlayerIndex s) (players s) in
            let meldId := "R" +:+ pretty (round s) +:+ "-" +:+ player_id me +:+ "-" +:+ pretty now in
            Some (set_message (Some (name me +:+ " submitted a " +:+ meld_type_name type +:+ " ("
                                     +:+ pretty (length cards) +:+ "). Now discard 1 card."))
                 (set_selectedCardIds []
                 (set_melds (melds s ++ [mkMeld meldId (player_id me) type cards (round s)])
                 (set_players ps s))))
      end.

Definition onLayoffToMeld (meldId : string) (s : GameState) : option GameState :=
  if negb (canAct s) || negb (canMeld s) then Some s
  else
    me ← current_player s;
    if Nat.eqb (length (selectedCardIds s)) 0 then
      Some (set_message (Some "Select cards to lay off first.") s)
    else
      let addedCards := selected_from_hand (hand me) (selectedCardIds s) in
      if Nat.eqb (length addedCards) 0 then
        Some (set_message (Some "Selected cards not found in hand.") s)
      else if Z.of_nat (length (hand me)) - Z.of_nat (length addedCards) <? 1 then
        Some (set_message (Some keep_one_msg) s)
      else
        match find (fun m => String.eqb (meld_id m) meldId) (melds s) with
        | None => Some (set_message (Some "Target meld not found.") s)
        | Some target =>
            match validateLayoff (meld_type target) (meld_cards target) addedCards (rule s) with
            | Err reason => Some (set_message (Some ("Lay off failed: " +:+ reason)) s)
            | Ok =>
                let newHand := remove_cards (hand me) addedCards in
                let melds' := map (fun m => if String.eqb (meld_id m) meldId
                                            then mkMeld (meld_id m) (meld_playerId m) (meld_type m)
                                                   (meld_cards m ++ addedCards) (meld_round m)
                                            else m) (melds s) in
                let ps := map_at (set_hand newHand) (currentPlayerIndex s) (players s) in
                Some (set_message (Some ("Laid off " +:+ pretty (length addedCards) +:+ " card(s) onto "
                                         +:+ meld_type_name (meld_type target) +:+ ". Now discard 1 card."))
                     (set_selectedCardIds []
                     (set_melds melds'
                     (set_players ps s))))
            end
        end.

Definition onDiscardSelected (s : GameState) : option GameState :=
  if negb (canDiscard s) then Some s
  else
    me ← current_player s;
    match selectedCardIds s with
    | [cardId] =>
        match find (fun c => String.eqb (card_id c) cardId) (hand me) with
        | None => Some (set_message (Some "Card not found.") s)
        | Some card =>
            let newHand := List.filter (fun c => negb (String.eqb (card_id c) cardId)) (hand me) in
            let newDiscard := discardOne (discardPile s) card in
            let ps := map_at (set_hand newHand) (currentPlayerIndex s) (players s) in
            let base := set_selectedCardIds [] (set_discardPile newDiscard (set_players ps s)) in
            let result := afterDiscard base (player_id me) (length newHand) in
            if negb (truthy (message result)) then
              nextPlayer ← players result !! currentPlayerIndex result;
              Some (set_message (Some (name me +:+ " discarded 1 card. Next: " +:+ name nextPlayer
                                       +:+ " (Draw 1).")) result)
            else Some result
        end
    | _ => Some (set_message (Some "Must select exactly 1 card to discard") s)
    end.

Definition onNextRound (ambient : nat -> nat) (s : GameState) : option GameState :=
  nextRound s (mkRoundOptions None (Some true)) ambient.

Inductive Action :=
  | ToggleSelect (cardId : string)
  | ClearSelection
  | SortRank
  | SortSuit
  | DrawFromDeck (ambient : nat -> nat)
  | DrawFromDiscard
  | SubmitMeld (now : Z)
  | LayoffToMeld (meldId : string)
  | DiscardSelected
  | NextRound (ambient : nat -> nat).

Definition act (a : Action) (s : GameState) : option GameState :=
  match a with
  | ToggleSelect id => onToggleSelect id s
  | ClearSelection => onClearSelection s
  | SortRank => onSortRank s
  | SortSuit => onSortSuit s
  | DrawFromDeck amb => onDrawFromDeck amb s
  | DrawFromDiscard => onDrawFromDiscard s
  | SubmitMeld now => onSubmitMeld now s
  | LayoffToMeld id => onLayoffToMeld id s
  | DiscardSelected => onDiscardSelected s
  | NextRound amb => onNextRound amb s
  end.

(** [Math.random()] is in [[0, 1)], so [floor(Math.random() * (i + 1)) <= i]. *)
Definition valid_pick (pick : nat -> nat) : Prop := forall i, (pick i <= i)%nat.

(** What the rendered view lets a user trigger: every handler (their own
    guards apply), with the "Next Round" button only rendered in [ROUND_END]. *)
Definition available (a : Action) (s : GameState) : Prop :=
  match a with
  | DrawFromDeck amb => valid_pick amb
  | NextRound amb => status s = ROUND_END /\ valid_pick amb
  | _ => True
  end.

Definition ui_step (s s' : GameState) : Prop :=
  exists a, available a s /\ act a s = Some s'.

Inductive reachable : GameState -> Prop :=
  | reach_new (o : NewGameOptions) (ambient : nat -> nat) (s : GameState) :
      valid_pick ambient -> newGame o ambient = Some s -> reachable s
  | reach_step (s s' : GameState) : reachable s -> ui_step s s' -> reachable s'.

(** GameView.tsx: [getRunEdges] *)
Record RunEdges := mkRunEdges { edge_min : Z; edge_max : Z; edge_suit : Suit }.

Definition getRunEdges (cards : list Card) (rule : RoundRule) : option RunEdges :=
  let nonWild := List.filter (fun c => negb (isWildRank (rank c) rule)) cards in
  match nonWild with
  | [] => None
  | c0 :: _ =>
      let ranks := sort_num (map rank nonWild) in
      Some (mkRunEdges (default 0 (head ranks)) (default 0 (last ranks)) (suit c0))
  end.

(* ------------------------------------------------------------------ *)
(** ** scoring.ts: game scores

    [getRankings] sorts with [Array.prototype.sort], stable, as [stable_sort] above. *)

Record GameScore := mkGameScore {
  gs_playerId : string;
  roundScores : list Z;
  totalScore : Z
}.

Definition createGameScore (playerId : string) : GameScore := mkGameScore playerId [] 0.

(** [newRoundScores.reduce((a, b) => a + b, 0)] *)
Definition addRoundScore (gameScore : GameScore) (roundPoints : Z) : GameScore :=
  let newRoundScores := roundScores gameScore ++ [roundPoints] in
  mkGameScore (gs_playerId gameScore) newRoundScores (fold_left Z.add newRoundScores 0).

(** [Math.min(...xs)]: [None] is [Infinity], the value for no argument. *)
Definition js_min (xs : list Z) : option Z :=
  fold_left (fun acc x => Some (match acc with None => x | Some m => Z.min m x end)) xs None.

Definition determineGameWinners (gameScores : list GameScore) : list string :=
  match gameScores with
  | [] => []
  | _ =>
      let minScore := js_min (map totalScore gameScores) in
      map gs_playerId (List.filter (fun s => match minScore with
                                             | Some m => totalScore s =? m
                                             | None => false
                                             end) gameScores)
  end.

(** [[...gameScores].sort((a, b) => a.totalScore - b.totalScore)] *)
Definition getRankings (gameScores : list GameScore) : list GameScore :=
  stable_sort (fun a b => totalScore a - totalScore b) gameScores.


(* ------------------------------------------------------------------ *)
(** ** Invariants and a scripted game *)

(** The handlers other than the discard and the next round keep the round's
    status, its out trigger and its number. *)
Definition keeps_round (s s' : GameState) : Prop :=
  status s' = status s /\ outTriggeredByPlayerId s' = outTriggeredByPlayerId s /\
  round s' = round s.

(** The cards in play: every hand, the draw pile and the discard pile. *)
Definition table_cards (s : GameState) : list Card :=
  concat (map hand (players s)) ++ drawPile s ++ discardPile s.

Fixpoint run (acts : list Action) (s : GameState) : option GameState :=
  match acts with
  | [] => Some s
  | a :: acts' => s' ← act a s; run acts' s'
  end.

Definition no_choice (a : Action) : bool :=
  match a with DrawFromDeck _ | NextRound _ => false | _ => true end.

Definition no_swap_pick : nat -> nat := fun i => i.
Definition default_options : NewGameOptions := mkNewGameOptions None None None.

Definition blank_state : GameState :=
  mkState 0 (mkRoundRule 1 3 3) [] 0 [] [] [] [] NEED_DRAW None None PLAYING None.

Definition game0 : GameState :=
  Eval vm_compute in default blank_state (newGame default_options no_swap_pick).

Definition p1_goes_out : list Action :=
  [DrawFromDiscard; ToggleSelect "D1-STARS-3-0"; ToggleSelect "D1-STARS-5-2";
   ToggleSelect "D1-STARS-7-4"; SubmitMeld 1; ToggleSelect "D1-STARS-9-6"; DiscardSelected].

Definition p2_final_turn : list Action :=
  [DrawFromDiscard; ToggleSelect "D1-STARS-4-1"; ToggleSelect "D1-STARS-6-3";
   ToggleSelect "D1-STARS-8-5"; LayoffToMeld "R1-P1-1"; ToggleSelect "D1-STARS-9-6"].

Definition p1_selects_all : list Action :=
  [DrawFromDiscard; ToggleSelect "D1-STARS-3-0"; ToggleSelect "D1-STARS-5-2";
   ToggleSelect "D1-STARS-7-4"; ToggleSelect "D1-STARS-9-6"].

Definition p1_out : GameState := Eval vm_compute in default blank_state (run p1_goes_out game0).
Definition p2_last_discard : GameState := Eval vm_compute in default blank_state (run p2_final_turn p1_out).
Definition round1_over : GameState := Eval vm_compute in default blank_state (onDiscardSelected p2_last_discard).
Definition p1_all_selected : GameState := Eval vm_compute in default blank_state (run p1_selects_all game0).

Definition p2_player : PlayerState :=
  mkPlayer "P2" "Player 2" [mkCard "D1-STARS-9-6" STARS 9 1] 0.

Definition p1_player_all : PlayerState := Eval vm_compute in default (mkPlayer EmptyString EmptyString [] 0) (players p1_all_selected !! 0%nat).

(** Sample values. *)
Definition joker_card : Card := mkCard "D1-JOKER-0-55" STARS 0 1.
Definition round1_rule : RoundRule := mkRoundRule 1 3 3.

(* ------------------------------------------------------------------ *)
(** ** Readings of the specification, to be compared with the code *)

(** Sum of the gaps [next - prev - 1] between consecutive elements. *)
Fixpoint gap_sum (l : list Z) : Z :=
  match l with
  | prev :: (cur :: _) as l' => (cur - prev - 1) + gap_sum l'
  | _ => 0
  end.

(** Spec 4.3, RUN: at least 3 cards, and either all wild, or the non-wild
    cards share one suit, have pairwise distinct ranks, and the gaps of their
    ascending arrangement sum to at most the number of wild cards. *)
Definition runAccepted_spec (cards : list Card) (rule : RoundRule) : Prop :=
  (3 <= length cards)%nat /\
  (Forall (fun c => isWildRank (rank c) rule = true) cards \/
   ((exists s, Forall (fun c => suit c = s) (nonWildOf cards rule)) /\
    NoDup (map rank (nonWildOf cards rule)) /\
    forall sorted, sorted ≡ₚ map rank (nonWildOf cards rule) -> Sorted Z.le sorted ->
      gap_sum sorted <= Z.of_nat (length cards) - Z.of_nat (length (nonWildOf cards rule)))).

(** Spec 4.5: per card, 50 for a Joker, 20 for the round wild, else face value. *)
Definition cardPenalty_spec (r : Z) (rule : RoundRule) : Z :=
  if r =? 0 then 50 else if r =? wildRank rule then 20 else r.

Definition scoreHand_spec (ranks : list Z) (rule : RoundRule) : Z :=
  fold_right (fun r acc => cardPenalty_spec r rule + acc) 0 ranks.

Definition jokerCount (hand : list Card) : Z :=
  Z.of_nat (length (List.filter (fun c => isJoker (rank c)) hand)).

(** Spec 4.2, [mulberry32] as the specification words it: all arithmetic on
    unsigned 32-bit words, [x = (x * (x | 1)) mod 2^32] with the shifted [x]. *)
Definition spec_mulberry_value (t : Z) : Z :=
  let x := t in
  let x := Z.lxor x (Z.shiftr x 15) in
  let x := (x * Z.lor x 1) mod 2 ^ 32 in
  let x := Z.lxor x ((x + (Z.lxor x (Z.shiftr x 7) * Z.lor x 61) mod 2 ^ 32) mod 2 ^ 32) in
  let x := Z.lxor x (Z.shiftr x 14) in
  x mod 2 ^ 32.

Fixpoint spec_mulberry_calls (t : Z) (n : nat) : list Z :=
  match n with
  | O => []
  | S n' => let t' := (t + mulberry_inc) mod 2 ^ 32 in
            spec_mulberry_value t' :: spec_mulberry_calls t' n'
  end.

(** The same, with the multiplier [t | 1] taken from the counter [t] rather
    than from the shifted [x]. *)
Definition amended_mulberry_value (t : Z) : Z :=
  let x := Z.lxor t (Z.shiftr t 15) in
  let x := (x * Z.lor t 1) mod 2 ^ 32 in
  let x := Z.lxor x ((x + (Z.lxor x (Z.shiftr x 7) * Z.lor x 61) mod 2 ^ 32) mod 2 ^ 32) in
  let x := Z.lxor x (Z.shiftr x 14) in
  x mod 2 ^ 32.

Fixpoint amended_mulberry_calls (t : Z) (n : nat) : list Z :=
  match n with
  | O => []
  | S n' => let t' := (t + mulberry_inc) mod 2 ^ 32 in
            amended_mulberry_value t' :: amended_mulberry_calls t' n'
  end.

(** Spec 4.2 / 8: copy-major, then suit-major, then rank-major, with each
    copy's three jokers last; as (deckIndex, suit, rank). *)
Definition deck_layout_spec : list (Z * Suit * Z) :=
  concat (map (fun d =>
    concat (map (fun s => map (fun r => (d, s, r)) FiveCrownsCompat.ranks)
                FiveCrownsCompat.suits)
    ++ repeat (d, STARS, 0) 3) [1; 2]).

(* ------------------------------------------------------------------ *)
(** ** Notions used by the further properties *)

(** The ranks a card can have: the joker rank and 1..13. *)
Definition valid_ranks : list Z := 0 :: FiveCrownsCompat.ranks.

(** The cards of a state that are not on the table: those in the melds. *)
Definition cards_in_play (s : GameState) : list Card :=
  table_cards s ++ concat (map meld_cards (melds s)).

Definition same_player_no_lower (p q : PlayerState) : Prop :=
  player_id q = player_id p /\ name q = name p /\ score p <= score q.

Definition dealt_round_robin (deck : list Card) (n m : nat) (hs : list (list Card)) : Prop :=
  length hs = n /\
  forall p, (p < n)%nat -> exists hd, hs !! p = Some hd /\ length hd = m /\
    forall j, (j < m)%nat -> hd !! j = deck !! (j * n + p)%nat.

(* ------------------------------------------------------------------ *)
(** * Proofs *)

(** ** Sorting and the RUN loops *)

Lemma insert_num_perm x l : insert_num x l ≡ₚ x :: l.
Proof.
  induction l as [|y l IH]; simpl; [done|].
  destruct (y <=? x); [|done].
  rewrite IH. apply perm_swap.
Qed.

Lemma sort_num_perm l : sort_num l ≡ₚ l.
Proof.
  induction l as [|x l IH]; simpl; [done|].
  rewrite insert_num_perm, IH. done.
Qed.

Lemma insert_num_sorted x l : Sorted Z.le l -> Sorted Z.le (insert_num x l).
Proof.
  induction 1 as [|y l Hs IH Hhd]; simpl; [repeat constructor|].
  destruct (y <=? x) eqn:E.
  - apply Z.leb_le in E. constructor; [done|].
    destruct l as [|z l]; simpl in *; [constructor; lia|].
    destruct (z <=? x) eqn:E2; constructor.
    + inversion Hhd; lia.
    + apply Z.leb_gt in E2; lia.
  - apply Z.leb_gt in E. constructor; [constructor; done|]. constructor; lia.
Qed.

Lemma sort_num_sorted l : Sorted Z.le (sort_num l).
Proof. induction l; simpl; [constructor|]. by apply insert_num_sorted. Qed.

Lemma sorted_no_adj_dup_NoDup l :
  Sorted Z.le l -> has_adjacent_dup l = false -> StronglySorted Z.lt l.
Proof.
  intros Hs Hd. apply Sorted_StronglySorted; [intros ???; lia|].
  induction Hs as [|x l Hs IH Hhd]; [constructor|].
  destruct l as [|y l]; simpl in Hd; [repeat constructor|].
  apply orb_false_iff in Hd as [Hyx Hd].
  constructor; [by apply IH|]. inversion Hhd; subst.
  apply Z.eqb_neq in Hyx. constructor. lia.
Qed.

Lemma StronglySorted_lt_NoDup l : StronglySorted Z.lt l -> NoDup l.
Proof.
  induction 1 as [|x l _ IH Hall]; constructor; [|done].
  intros Hin%list_elem_of_In. rewrite List.Forall_forall in Hall.
  apply Hall in Hin. lia.
Qed.

Lemma NoDup_no_adj_dup l : NoDup l -> has_adjacent_dup l = false.
Proof.
  induction 1 as [|x l Hnin _ IH]; [done|].
  destruct l as [|y l]; [done|].
  change (has_adjacent_dup (x :: y :: l)) with ((y =? x) || has_adjacent_dup (y :: l)).
  rewrite IH, orb_false_r. apply Z.eqb_neq. intros ->. apply Hnin. left.
Qed.

Lemma gaps_needed_strict l acc :
  StronglySorted Z.lt l -> gaps_needed l acc = Some (acc + gap_sum l).
Proof.
  revert acc. induction l as [|x l IH]; intros acc Hs; simpl; [f_equal; lia|].
  destruct l as [|y l]; [f_equal; simpl; lia|].
  inversion Hs as [|? ? Hs' Hall]; subst. inversion Hall; subst.
  destruct (y - x - 1 <? 0) eqn:E; [apply Z.ltb_lt in E; lia|].
  rewrite IH by done. f_equal. simpl. lia.
Qed.

Lemma nonWildOf_nil_Forall cards rule :
  nonWildOf cards rule = [] <-> Forall (fun c => isWildRank (rank c) rule = true) cards.
Proof.
  unfold nonWildOf. induction cards as [|c cards IH]; simpl.
  - split; [constructor|done].
  - destruct (isWildRank (rank c) rule) eqn:E; simpl.
    + rewrite IH. split; [intros; by constructor|by inversion 1].
    + split; [done|]. inversion 1; congruence.
Qed.

Lemma forallb_suit_Forall (l : list Card) s :
  forallb (fun c => Suit_eqb (suit c) s) l = true <-> Forall (fun c => suit c = s) l.
Proof.
  rewrite forallb_forall, List.Forall_forall.
  split; intros H c Hc; specialize (H c Hc);
    destruct (suit c), s; simpl in *; congruence.
Qed.

Lemma has_adjacent_dup_sort_false_iff l :
  has_adjacent_dup (sort_num l) = false <-> NoDup l.
Proof.
  split.
  - intros H. rewrite <- (sort_num_perm l).
    apply StronglySorted_lt_NoDup, sorted_no_adj_dup_NoDup; [apply sort_num_sorted|done].
  - intros H. apply NoDup_no_adj_dup. rewrite (sort_num_perm l). done.
Qed.

Lemma sorted_perm_unique (l1 l2 : list Z) :
  Sorted Z.le l1 -> Sorted Z.le l2 -> l1 ≡ₚ l2 -> l1 = l2.
Proof. apply Sorted_unique; typeclasses eauto. Qed.

(** ** C4 *)

(** C4: [validateMeld cards RUN rule] succeeds exactly when there are at
    least 3 cards and either every card is wild, or the non-wild cards share
    one suit, their ranks are pairwise distinct and the gaps between the
    ascending non-wild ranks sum to at most the number of wild cards. *)
Theorem validateMeld_run_iff (cards : list Card) (rule : RoundRule) :
  is_ok (validateMeld cards RUN rule) = true <-> runAccepted_spec cards rule.
Proof.
  unfold validateMeld, runAccepted_spec.
  destruct (Z.of_nat (length cards) <? 3) eqn:Hlen.
  { apply Z.ltb_lt in Hlen. simpl. split; [done|]. intros [H _]. lia. }
  apply Z.ltb_ge in Hlen.
  assert (Hlen' : (3 <= length cards)%nat) by lia.
  unfold validateRun. rewrite <- nonWildOf_nil_Forall.
  destruct (nonWildOf cards rule) as [|c0 rest] eqn:Hnw.
  { simpl. split; [intros _; split; [done|by left]|done]. }
  set (nw := c0 :: rest).
  assert (Hnotall : ~ (c0 :: rest = [])) by done.
  split.
  - intros Hok. split; [done|]. right.
    destruct (forallb (fun c => Suit_eqb (suit c) (suit c0)) nw) eqn:Hs;
      [|simpl in Hok; done].
    simpl negb in Hok. cbv iota in Hok.
    destruct (has_adjacent_dup (sort_num (map rank nw))) eqn:Hd; [done|].
    apply has_adjacent_dup_sort_false_iff in Hd.
    rewrite gaps_needed_strict in Hok.
    2: { apply sorted_no_adj_dup_NoDup; [apply sort_num_sorted|].
         apply has_adjacent_dup_sort_false_iff. done. }
    destruct (_ <? _) eqn:Hw in Hok; [done|]. apply Z.ltb_ge in Hw.
    split; [exists (suit c0); by apply forallb_suit_Forall|].
    split; [done|].
    intros sorted Hperm Hsorted.
    rewrite (sorted_perm_unique sorted (sort_num (map rank nw))); [lia|done|apply sort_num_sorted|].
    rewrite sort_num_perm. done.
  - intros [_ [Hall|[[s Hs] [Hnd Hgap]]]]; [done|].
    assert (Hs0 : suit c0 = s) by (inversion Hs; done).
    subst s.
    apply forallb_suit_Forall in Hs. fold nw in Hs |- *. rewrite Hs. simpl negb. cbv iota.
    assert (Hd : has_adjacent_dup (sort_num (map rank nw)) = false)
      by (apply has_adjacent_dup_sort_false_iff; done).
    rewrite Hd.
    rewrite gaps_needed_strict.
    2: { apply sorted_no_adj_dup_NoDup; [apply sort_num_sorted|done]. }
    specialize (Hgap (sort_num (map rank nw)) (sort_num_perm _) (sort_num_sorted _)).
    destruct (_ <? _) eqn:Hw; [apply Z.ltb_lt in Hw; lia|done].
Qed.

(** ** C7 *)

(** C7: [validateLayoff] fails when [addedCards] is empty and otherwise is
    exactly [validateMeld] of [meldCards ++ addedCards] with the same type
    and rule. *)
Theorem validateLayoff_spec (meldType : MeldType) (meldCards addedCards : list Card)
    (rule : RoundRule) :
  validateLayoff meldType meldCards addedCards rule =
  match addedCards with
  | [] => Err "Must select cards to layoff"
  | _ :: _ => validateMeld (meldCards ++ addedCards) meldType rule
  end.
Proof. unfold validateLayoff. by destruct addedCards. Qed.

(** ** C8 *)

Lemma scoreHand_acc (ranks : list Z) (rule : RoundRule) (acc : Z) :
  fold_left (fun total r =>
      if r =? 0 then total + FiveCrownsCompat.jokerPenalty
      else if r =? wildRank rule then total + FiveCrownsCompat.wildPenalty
      else total + r) ranks acc = acc + scoreHand_spec ranks rule.
Proof.
  revert acc. induction ranks as [|r ranks IH]; intros acc; simpl; [lia|].
  rewrite IH. unfold cardPenalty_spec, FiveCrownsCompat.jokerPenalty,
    FiveCrownsCompat.wildPenalty.
  destruct (r =? 0), (r =? wildRank rule); lia.
Qed.

(** C8: [scoreHand] sums, per card, 50 for a Joker (rank 0), 20 for the
    round's wild rank, and the face value otherwise; the empty hand scores 0
    and [n] cards of the (non-Joker) wild rank score [n * 20]. *)
Theorem scoreHand_penalties (ranks : list Z) (rule : RoundRule) :
  scoreHand ranks rule = scoreHand_spec ranks rule /\
  scoreHand [] rule = 0 /\
  (wildRank rule <> 0 -> forall n : nat,
     scoreHand (repeat (wildRank rule) n) rule = Z.of_nat n * 20).
Proof.
  split; [unfold scoreHand; rewrite scoreHand_acc; lia|].
  split; [reflexivity|].
  intros Hw n. unfold scoreHand. rewrite scoreHand_acc.
  induction n as [|n IH]; simpl; [lia|].
  unfold scoreHand_spec in *. simpl. unfold cardPenalty_spec at 1.
  rewrite (proj2 (Z.eqb_neq _ _) Hw), Z.eqb_refl. lia.
Qed.

(** ** C10 *)

(** C10, as stated, fails: a single Joker costs 20 in [calculateHandScore]
    (it is wild) and 50 in [scoreHand]. *)
Lemma calculateHandScore_joker_differs :
  calculateHandScore_default [joker_card] round1_rule = 20 /\
  scoreHand (map rank [joker_card]) round1_rule = 50.
Proof. split; reflexivity. Qed.

Lemma calculateHandScore_acc (hand : list Card) (rule : RoundRule) (acc : Z) :
  fold_left (fun total card =>
      let points := if isWildRank (rank card) rule then 20 else rank card in
      total + points) hand acc =
  acc + scoreHand_spec (map rank hand) rule - 30 * jokerCount hand.
Proof.
  revert acc. induction hand as [|c hand IH]; intros acc; simpl; [unfold jokerCount; simpl; lia|].
  rewrite IH. unfold jokerCount, cardPenalty_spec, isWildRank, isJoker. simpl.
  destruct (rank c =? 0) eqn:E0; simpl.
  - lia.
  - destruct (rank c =? wildRank rule); lia.
Qed.

(** C10 (amended): with its default [wildPenalty = 20], [calculateHandScore]
    equals [scoreHand] of the hand's ranks minus 30 per Joker: both charge
    20 for a card of the wild rank and the face value otherwise, but
    [calculateHandScore] charges a Joker 20 where [scoreHand] charges 50. *)
Theorem calculateHandScore_vs_scoreHand (hand : list Card) (rule : RoundRule) :
  calculateHandScore_default hand rule =
  scoreHand (map rank hand) rule - 30 * jokerCount hand.
Proof.
  unfold calculateHandScore_default, calculateHandScore.
  rewrite calculateHandScore_acc. unfold scoreHand. rewrite scoreHand_acc. lia.
Qed.

(** ** C9 *)

(** C9: with the default configuration, [createDecks] returns 116 cards,
    110 non-jokers and 6 jokers, with pairwise distinct ids, laid out
    copy-major, suit-major, rank-major with each copy's jokers last. *)
Theorem createDecks_default :
  length defaultDeck = 116%nat /\
  length (List.filter (fun c => negb (isJoker (rank c))) defaultDeck) = 110%nat /\
  length (List.filter (fun c => isJoker (rank c)) defaultDeck) = 6%nat /\
  NoDup (map card_id defaultDeck) /\
  map (fun c => (deckIndex c, suit c, rank c)) defaultDeck = deck_layout_spec.
Proof.
  split; [vm_compute; reflexivity|].
  split; [vm_compute; reflexivity|].
  split; [vm_compute; reflexivity|].
  split; [|vm_compute; reflexivity].
  apply (bool_decide_eq_true_1 _). vm_compute. reflexivity.
Qed.

(** ** C3 *)

Lemma toUint32_range z : 0 <= toUint32 z < 2 ^ 32.
Proof. unfold toUint32. apply Z.mod_pos_bound. lia. Qed.

Lemma toUint32_small z : 0 <= z < 2 ^ 32 -> toUint32 z = z.
Proof. intros. unfold toUint32. apply Z.mod_small. done. Qed.

Lemma toUint32_idem z : toUint32 (toUint32 z) = toUint32 z.
Proof. apply toUint32_small, toUint32_range. Qed.

Lemma toUint32_toInt32 z : toUint32 (toInt32 z) = toUint32 z.
Proof.
  unfold toInt32. destruct (_ <? _); [apply toUint32_idem|].
  unfold toUint32. rewrite Zminus_mod, Z_mod_same_full, Z.sub_0_r, !Zmod_mod. done.
Qed.

Lemma toUint32_lxor a b : toUint32 (Z.lxor a b) = Z.lxor (toUint32 a) (toUint32 b).
Proof.
  unfold toUint32. rewrite <- !Z.land_ones by lia.
  apply Z.bits_inj'. intros n Hn.
  rewrite Z.land_spec, !Z.lxor_spec, !Z.land_spec. destruct (Z.testbit (Z.ones 32) n); btauto.
Qed.

Lemma toUint32_lor a b : toUint32 (Z.lor a b) = Z.lor (toUint32 a) (toUint32 b).
Proof.
  unfold toUint32. rewrite <- !Z.land_ones by lia.
  apply Z.bits_inj'. intros n Hn.
  rewrite Z.land_spec, !Z.lor_spec, !Z.land_spec. destruct (Z.testbit (Z.ones 32) n); btauto.
Qed.

Lemma toUint32_add a b : toUint32 (a + b) = toUint32 (toUint32 a + toUint32 b).
Proof. unfold toUint32. apply Zplus_mod. Qed.

Lemma toUint32_mul a b : toUint32 (a * b) = toUint32 (toUint32 a * toUint32 b).
Proof. unfold toUint32. apply Zmult_mod. Qed.

Lemma lxor_range a b : 0 <= a < 2 ^ 32 -> 0 <= b < 2 ^ 32 -> 0 <= Z.lxor a b < 2 ^ 32.
Proof.
  intros Ha Hb. rewrite <- (toUint32_small a), <- (toUint32_small b) by done.
  rewrite <- toUint32_lxor. apply toUint32_range.
Qed.

Lemma lor_range a b : 0 <= a < 2 ^ 32 -> 0 <= b < 2 ^ 32 -> 0 <= Z.lor a b < 2 ^ 32.
Proof.
  intros Ha Hb. rewrite <- (toUint32_small a), <- (toUint32_small b) by done.
  rewrite <- toUint32_lor. apply toUint32_range.
Qed.

Lemma shiftr_range a n : 0 <= a < 2 ^ 32 -> 0 <= n -> 0 <= Z.shiftr a n < 2 ^ 32.
Proof.
  intros Ha Hn. rewrite Z.shiftr_div_pow2 by done. split; [apply Z.div_pos; lia|].
  apply (Z.le_lt_trans _ a); [|lia].
  assert (0 < 2 ^ n) by (apply Z.pow_pos_nonneg; lia).
  apply Z.div_le_upper_bound; nia.
Qed.

Lemma toUint32_js_xor a b : toUint32 (js_xor a b) = Z.lxor (toUint32 a) (toUint32 b).
Proof.
  unfold js_xor. rewrite toUint32_toInt32. apply toUint32_small, lxor_range; apply toUint32_range.
Qed.

Lemma toUint32_js_or a b : toUint32 (js_or a b) = Z.lor (toUint32 a) (toUint32 b).
Proof.
  unfold js_or. rewrite toUint32_toInt32. apply toUint32_small, lor_range; apply toUint32_range.
Qed.

Lemma toUint32_js_ushr a n : 0 <= n -> toUint32 (js_ushr a n) = js_ushr a n.
Proof. intros. apply toUint32_small, shiftr_range; [apply toUint32_range|done]. Qed.

Lemma toUint32_imul a b : toUint32 (imul a b) = (toUint32 a * toUint32 b) mod 2 ^ 32.
Proof. unfold imul. rewrite toUint32_toInt32. done. Qed.

(** The closure's body only depends on [t] modulo [2^32], and there it is the
    amended algorithm. *)
Lemma mulberry32_value_amended t :
  mulberry32_value t = amended_mulberry_value (toUint32 t).
Proof.
  unfold mulberry32_value, amended_mulberry_value. cbv zeta.
  set (u := toUint32 t).
  set (x1 := imul (js_xor t (js_ushr t 15)) (js_or 1 t)).
  assert (Hx1 : toUint32 x1 = (Z.lxor u (Z.shiftr u 15) * Z.lor u 1) mod 2 ^ 32).
  { subst x1. rewrite toUint32_imul, toUint32_js_xor, toUint32_js_or, toUint32_js_ushr by lia.
    unfold js_ushr. fold u. rewrite (Z.lor_comm (toUint32 1) u). reflexivity. }
  set (y := (Z.lxor u (Z.shiftr u 15) * Z.lor u 1) mod 2 ^ 32) in *.
  set (x2 := js_xor x1 (x1 + imul (js_xor x1 (js_ushr x1 7)) (js_or 61 x1))).
  assert (Hx2 : toUint32 x2 =
     Z.lxor y ((y + (Z.lxor y (Z.shiftr y 7) * Z.lor y 61) mod 2 ^ 32) mod 2 ^ 32)).
  { subst x2. rewrite toUint32_js_xor, toUint32_add, toUint32_imul, toUint32_js_xor,
      toUint32_js_or, toUint32_js_ushr by lia.
    unfold js_ushr. rewrite Hx1. rewrite (Z.lor_comm (toUint32 61) y).
    reflexivity. }
  rewrite toUint32_js_xor, toUint32_js_ushr by lia. unfold js_ushr.
  rewrite Hx2. symmetry. apply Z.mod_small.
  apply lxor_range.
  - apply lxor_range; [apply Z.mod_pos_bound; lia|apply Z.mod_pos_bound; lia].
  - apply shiftr_range; [|lia].
    apply lxor_range; [apply Z.mod_pos_bound; lia|apply Z.mod_pos_bound; lia].
Qed.

Lemma dbl_round_small n : n < 2 ^ 53 -> dbl_round n = n.
Proof. intros H. unfold dbl_round. destruct (n <? 2 ^ 53) eqn:E; [done|]. apply Z.ltb_ge in E. lia. Qed.

Lemma mulberry32_calls_amended (n : nat) (t : Z) :
  0 <= t -> t + Z.of_nat n * mulberry_inc < 2 ^ 53 ->
  mulberry32_calls t n = amended_mulberry_calls (t mod 2 ^ 32) n.
Proof.
  revert t. induction n as [|n IH]; intros t Ht Hb; [done|].
  simpl. unfold mulberry32_next.
  rewrite dbl_round_small by (unfold mulberry_inc in *; lia).
  rewrite mulberry32_value_amended. unfold toUint32.
  assert (Hm : (t mod 2 ^ 32 + mulberry_inc) mod 2 ^ 32 = (t + mulberry_inc) mod 2 ^ 32).
  { rewrite Zplus_mod_idemp_l. done. }
  rewrite Hm. f_equal. apply IH; unfold mulberry_inc in *; lia.
Qed.

(** C3, as stated, fails at the first call with seed 0: the code multiplies
    by [t | 1] (the counter), the specification by [x | 1] (the shifted
    value), and the first outputs differ (1144304738 against 1752817971,
    over [2^32]). *)
Lemma mulberry32_spec_differs :
  mulberry32 0 1 = [1144304738] /\ spec_mulberry_calls 0 1 = [1752817971].
Proof. split; vm_compute; reflexivity. Qed.

(** C3 (amended): for a 32-bit unsigned seed, while the running counter
    [seed + n * 0x6D2B79F5] stays below [2^53] (so that [t += 0x6D2B79F5] is
    exact), the first [n] values of [mulberry32(seed)] are those of: [t = (t +
    0x6D2B79F5) mod 2^32; x = t ^ (t >>> 15); x = x * (t | 1) mod 2^32;
    x ^= x + ((x ^ (x >>> 7)) * (x | 61)) mod 2^32; x ^= x >>> 14; return x / 2^32]. *)
Theorem mulberry32_amended (seed : Z) (n : nat)
    (Hseed : 0 <= seed < 2 ^ 32)
    (Hbound : seed + Z.of_nat n * mulberry_inc < 2 ^ 53) :
  mulberry32 seed n = amended_mulberry_calls seed n.
Proof.
  unfold mulberry32. rewrite toUint32_small by done.
  rewrite mulberry32_calls_amended by lia.
  rewrite Z.mod_small by done. done.
Qed.

Lemma mulberry32_amended_witness :
  (0 <= 42 < 2 ^ 32 /\ 42 + Z.of_nat 1000 * mulberry_inc < 2 ^ 53) /\
  mulberry32 42 1000 = amended_mulberry_calls 42 1000.
Proof.
  split; [unfold mulberry_inc; lia|].
  apply mulberry32_amended; unfold mulberry_inc; lia.
Defined.


(** ** The action handlers *)

Lemma map_at_length {A} (f : A -> A) i (l : list A) : length (map_at f i l) = length l.
Proof. revert i; induction l as [|x l IH]; intros [|i]; simpl; auto. Qed.

Lemma map_at_lookup_ne {A} (f : A -> A) i j (l : list A) :
  i <> j -> map_at f i l !! j = l !! j.
Proof.
  revert i j; induction l as [|x l IH]; intros [|i] [|j] Hij; simpl; auto; try congruence.
Qed.

Lemma map_at_lookup_eq {A} (f : A -> A) i (l : list A) :
  map_at f i l !! i = f <$> l !! i.
Proof. revert i; induction l as [|x l IH]; intros [|i]; simpl; auto. Qed.

Lemma map_at_lookup_inv {A} (f : A -> A) (i j : nat) (l : list A) (y : A) :
  map_at f i l !! j = Some y -> exists x, l !! j = Some x /\ (y = x \/ (j = i /\ y = f x)).
Proof.
  revert i j; induction l as [|x l IH]; intros [|i] [|j] H; simpl in *; try discriminate.
  - injection H as <-. eauto.
  - eauto.
  - injection H as <-. eauto.
  - destruct (IH i j H) as (z & Hz & [-> | [-> ->]]); eauto.
Qed.

Lemma truthy_Some (a : string) : a <> EmptyString -> truthy (Some a) = true.
Proof.
  intros H; unfold truthy; destruct (String.eqb a EmptyString) eqn:E; [|reflexivity].
  apply String.eqb_eq in E; congruence.
Qed.

Lemma afterDiscard_other (st : GameState) (a pid : string) (n : nat) (k : Z) :
  outTriggeredByPlayerId st = Some a -> a <> EmptyString -> a <> pid ->
  turnsRemainingAfterOut st = Some k -> status st = PLAYING ->
  afterDiscard st pid n =
    if k - 1 <=? 0
    then endRound (set_message (Some ("Final turns completed. Scoring round "
                                      +:+ pretty (round st) +:+ "...")) st)
    else advancePlayer (set_turnsRemainingAfterOut (Some (k - 1)) st).
Proof.
  intros Hout Ha Hne Hturns Hst.
  assert (Hne' : String.eqb a pid = false) by (apply String.eqb_neq; exact Hne).
  unfold afterDiscard. rewrite Hout, (truthy_Some a Ha), andb_false_r.
  cbn [negb andb default]. rewrite Hout, (truthy_Some a Ha). cbn [negb andb default].
  cbn [id]. rewrite Hne'. cbn [negb].
  unfold consumeOutTurnIfNeeded. rewrite Hout, (truthy_Some a Ha), Hturns. cbn [negb].
  destruct (k - 1 <=? 0).
  - assert (E : Status_eqb (status (endRound (set_message (Some ("Final turns completed. Scoring round "
                  +:+ pretty (round st) +:+ "...")) st))) PLAYING = false).
    { unfold endRound; cbn. destruct (_ <=? _); reflexivity. }
    rewrite E. reflexivity.
  - cbn. rewrite Hst. reflexivity.
Qed.

Lemma endRound_status (st : GameState) : status (endRound st) <> PLAYING.
Proof. unfold endRound; cbn. destruct (_ <=? _); discriminate. Qed.

Ltac handler_cases :=
  repeat (simplify_eq/=; try case_match;
          try match goal with H : context [mbind _ ?x] |- _ => destruct x eqn:? end);
  simplify_eq/=.

Lemma other_handlers_keep_round (a : Action) (s s' : GameState) :
  match a with DiscardSelected | NextRound _ => False | _ => True end ->
  act a s = Some s' -> keeps_round s s'.
Proof.
  unfold keeps_round.
  destruct a; simpl; intros Hk H;
    [unfold onToggleSelect in H | unfold onClearSelection in H | unfold onSortRank in H
    | unfold onSortSuit in H | unfold onDrawFromDeck in H | unfold onDrawFromDiscard in H
    | unfold onSubmitMeld in H | unfold onLayoffToMeld in H | contradiction | contradiction];
    handler_cases; auto.
Qed.

(** ** The scripted game *)

Lemma run_reachable (acts : list Action) (s s' : GameState) :
  reachable s -> forallb no_choice acts = true -> run acts s = Some s' -> reachable s'.
Proof.
  revert s; induction acts as [|a acts IH]; intros s Hr Hc Hrun; simpl in *.
  - injection Hrun as <-. exact Hr.
  - apply andb_prop in Hc as [Ha Hc].
    destruct (act a s) as [s1|] eqn:E; [|discriminate]. simpl in Hrun.
    apply (IH s1); [|exact Hc|exact Hrun].
    apply (reach_step s s1 Hr). exists a. split; [|exact E].
    destruct a; try exact I; discriminate.
Qed.

Lemma game0_reachable : reachable game0.
Proof.
  apply (reach_new default_options no_swap_pick).
  - intros i. unfold no_swap_pick. lia.
  - vm_compute. reflexivity.
Qed.

Lemma p1_out_reachable : reachable p1_out.
Proof. apply (run_reachable p1_goes_out game0); [exact game0_reachable|reflexivity|vm_compute; reflexivity]. Qed.

Lemma p2_last_discard_reachable : reachable p2_last_discard.
Proof. apply (run_reachable p2_final_turn p1_out); [exact p1_out_reachable|reflexivity|vm_compute; reflexivity]. Qed.

Lemma p2_last_discard_step : ui_step p2_last_discard round1_over.
Proof. exists DiscardSelected. split; [exact I|]. vm_compute. reflexivity. Qed.

(** ** C1 *)

(** C1: in a PLAYING state in phase NEED_DISCARD where an out was triggered
    by another player and [k] final turns remain, discarding the one selected
    card always consumes a final turn, whatever the size of the new hand: with
    [k - 1 > 0] turns left the counter becomes [k - 1], the out trigger is kept
    and play passes to the next player; when it reaches 0 the round ends
    (status leaves PLAYING, every hand's penalty is added to its score) and
    [currentPlayerIndex] is not advanced. *)
Theorem onDiscardSelected_final_turn (s : GameState) (me : PlayerState) (cardId a : string)
    (card : Card) (k : Z)
    (Hstatus : status s = PLAYING) (Hphase : turnPhase s = NEED_DISCARD)
    (Hme : current_player s = Some me) (Hsel : selectedCardIds s = [cardId])
    (Hcard : find (fun c => String.eqb (card_id c) cardId) (hand me) = Some card)
    (Hout : outTriggeredByPlayerId s = Some a) (Ha : a <> EmptyString)
    (Hother : a <> player_id me) (Hturns : turnsRemainingAfterOut s = Some k) :
  let newHand := List.filter (fun c => negb (String.eqb (card_id c) cardId)) (hand me) in
  let ps := map_at (set_hand newHand) (currentPlayerIndex s) (players s) in
  exists s', onDiscardSelected s = Some s' /\
    (0 < k - 1 ->
       turnsRemainingAfterOut s' = Some (k - 1) /\ status s' = PLAYING /\
       outTriggeredByPlayerId s' = Some a /\
       currentPlayerIndex s' = Nat.modulo (S (currentPlayerIndex s)) (length (players s)) /\
       players s' = ps) /\
    (k - 1 <= 0 ->
       status s' <> PLAYING /\ currentPlayerIndex s' = currentPlayerIndex s /\
       players s' = map (fun p => mkPlayer (player_id p) (name p) (hand p)
                                    (score p + scoreHand (map rank (hand p)) (rule s))) ps).
Proof.
  intros newHand ps.
  assert (Hlen : (currentPlayerIndex s < length (players s))%nat)
    by (unfold current_player in Hme; eapply lookup_lt_Some; eauto).
  unfold onDiscardSelected, canDiscard, canAct, phase_is.
  rewrite Hstatus, Hphase, Hme, Hsel. cbn [negb andb Status_eqb mbind option_bind].
  rewrite Hcard. cbv zeta.
  rewrite (afterDiscard_other _ a (player_id me) _ k); try assumption.
  assert (Hrest : forall r, (currentPlayerIndex r < length (players r))%nat ->
            exists s', (if negb (truthy (message r)) then
                          players r !! currentPlayerIndex r ≫= (fun nextPlayer =>
                            Some (set_message (Some (name me +:+ " discarded 1 card. Next: "
                                   +:+ name nextPlayer +:+ " (Draw 1).")) r))
                        else Some r) = Some s' /\ exists m, s' = set_message m r \/ s' = r).
  { intros r Hr. destruct (truthy (message r)); cbn [negb].
    - exists r. split; [reflexivity|]. exists None. right. reflexivity.
    - destruct (lookup_lt_is_Some_2 _ _ Hr) as [np Hnp]. rewrite Hnp. cbn.
      eexists; split; [reflexivity|]. eexists; left; reflexivity. }
  destruct (Z.leb_spec (k - 1) 0) as [Hk|Hk].
  - set (r := endRound _).
    destruct (Hrest r) as (s' & E & m & Hs').
    { subst r; cbn. rewrite length_map, map_at_length. exact Hlen. }
    exists s'. split; [exact E|]. split; [lia|]. intros _.
    destruct Hs' as [-> | ->]; cbn;
      (split; [apply endRound_status|]); subst r; cbn; auto.
  - set (r := advancePlayer _).
    destruct (Hrest r) as (s' & E & m & Hs').
    { subst r; cbn. rewrite map_at_length. apply Nat.mod_upper_bound. lia. }
    exists s'. split; [exact E|]. split; [|lia]. intros _.
    destruct Hs' as [-> | ->]; subst r; cbn; rewrite ?Hstatus, ?Hout, ?map_at_length;
      auto 10.
Qed.

Lemma onDiscardSelected_final_turn_witness :
  exists s', onDiscardSelected p2_last_discard = Some s' /\ status s' <> PLAYING /\
             currentPlayerIndex s' = currentPlayerIndex p2_last_discard.
Proof.
  destruct (onDiscardSelected_final_turn p2_last_discard p2_player "D1-STARS-9-6" "P1"
              (mkCard "D1-STARS-9-6" STARS 9 1) 1) as (s' & H1 & _ & H3).
  - reflexivity.
  - reflexivity.
  - reflexivity.
  - reflexivity.
  - reflexivity.
  - reflexivity.
  - discriminate.
  - discriminate.
  - reflexivity.
  - destruct H3 as (H3 & H4 & _); [lia|]. exists s'. auto.
Defined.

(** ** C2 *)

Lemma afterDiscard_out (st : GameState) (pid : string) (n : nat) (a : string) :
  outTriggeredByPlayerId st = Some a -> a <> EmptyString -> status st = PLAYING ->
  let r := afterDiscard st pid n in
  (status r = PLAYING /\ outTriggeredByPlayerId r = Some a) \/
  (status r <> PLAYING /\ outTriggeredByPlayerId r = None /\ round r = round st).
Proof.
  intros Hout Ha Hst r. subst r.
  unfold afterDiscard. rewrite Hout, (truthy_Some a Ha), andb_false_r.
  cbn [negb andb default]. rewrite Hout, (truthy_Some a Ha). cbn [negb andb default id].
  destruct (String.eqb a pid); cbn [negb].
  - left. cbn. auto.
  - unfold consumeOutTurnIfNeeded. rewrite Hout, (truthy_Some a Ha). cbn [negb].
    destruct (turnsRemainingAfterOut st) as [k|]; cbn.
    + destruct (k - 1 <=? 0).
      * right. unfold endRound; cbn. destruct (_ <=? _); cbn; auto; split; try discriminate; auto.
      * cbn. rewrite Hst. cbn. auto.
    + cbn. rewrite Hst. cbn. auto.
Qed.

Lemma onDiscardSelected_out (s s' : GameState) (a : string) :
  outTriggeredByPlayerId s = Some a -> a <> EmptyString -> status s = PLAYING ->
  onDiscardSelected s = Some s' ->
  (status s' = PLAYING /\ outTriggeredByPlayerId s' = Some a) \/
  (status s' <> PLAYING /\ outTriggeredByPlayerId s' = None /\ round s' = round s).
Proof.
  intros Hout Ha Hst H. unfold onDiscardSelected in H.
  destruct (negb (canDiscard s)); [injection H as <-; left; auto|].
  destruct (current_player s) as [me|]; [|discriminate]. cbn [mbind option_bind] in H.
  destruct (selectedCardIds s) as [|cid [|? ?]];
    [injection H as <-; left; auto| |injection H as <-; left; auto].
  destruct (find _ (hand me)); [|injection H as <-; left; auto].
  cbv zeta in H.
  match type of H with context [afterDiscard ?b ?p ?n] =>
    pose proof (afterDiscard_out b p n a Hout Ha Hst) as Hr;
    set (r := afterDiscard b p n) in * end.
  destruct (negb (truthy (message r))).
  - destruct (players r !! currentPlayerIndex r); cbn in H; [|discriminate].
    injection H as <-. exact Hr.
  - injection H as <-. exact Hr.
Qed.

(** C2, as stated, fails: in the scripted game P1 goes out, and P2's final
    discard also empties P2's hand; it ends the round and resets
    [outTriggeredByPlayerId] from "P1" to [None]. *)
Lemma out_trigger_cleared_by_final_discard :
  reachable p2_last_discard /\
  outTriggeredByPlayerId p2_last_discard = Some "P1" /\
  ui_step p2_last_discard round1_over /\
  round round1_over = round p2_last_discard /\
  players round1_over !! 1%nat = Some (mkPlayer "P2" "Player 2" [] 0) /\
  outTriggeredByPlayerId round1_over = None.
Proof.
  split; [exact p2_last_discard_reachable|].
  split; [reflexivity|]. split; [exact p2_last_discard_step|].
  vm_compute. auto.
Qed.

(** C2 (amended): from a PLAYING state whose out trigger is a player id [a],
    every action the view offers either keeps the round going with the
    trigger still [a], or ends the round, clearing the trigger (to [None])
    without changing the round number. It is never set to another id. *)
Theorem out_trigger_write_once (s s' : GameState) (a : string)
    (Hplaying : status s = PLAYING) (Hout : outTriggeredByPlayerId s = Some a)
    (Ha : a <> EmptyString) (Hstep : ui_step s s') :
  (status s' = PLAYING /\ outTriggeredByPlayerId s' = Some a) \/
  (status s' <> PLAYING /\ outTriggeredByPlayerId s' = None /\ round s' = round s).
Proof.
  destruct Hstep as (act0 & Havail & Hact).
  destruct act0 eqn:Ea;
    try (destruct (other_handlers_keep_round act0 s s') as (E1 & E2 & E3);
         [subst act0; exact I | subst act0; exact Hact | left; rewrite E1, E2; auto]).
  - eapply onDiscardSelected_out; eauto.
  - simpl in Havail. destruct Havail as [He _]. congruence.
Qed.

Lemma out_trigger_write_once_witness :
  (status round1_over = PLAYING /\ outTriggeredByPlayerId round1_over = Some "P1") \/
  (status round1_over <> PLAYING /\ outTriggeredByPlayerId round1_over = None /\
   round round1_over = round p2_last_discard).
Proof.
  apply (out_trigger_write_once p2_last_discard round1_over "P1").
  - reflexivity.
  - reflexivity.
  - discriminate.
  - exact p2_last_discard_step.
Defined.

(** ** Shuffling and dealing *)

Lemma swap_perm {A} (a : list A) (i j : nat) : swap a i j ≡ₚ a.
Proof.
  unfold swap.
  destruct (a !! i) as [x|] eqn:Hi; [|reflexivity].
  destruct (a !! j) as [y|] eqn:Hj; [|reflexivity].
  apply Permutation_insert_swap; assumption.
Qed.

Lemma shuffle_loop_perm {A} (pick : nat -> nat) (i : nat) (a : list A) :
  shuffle_loop pick i a ≡ₚ a.
Proof.
  revert a; induction i as [|i IH]; intros a; simpl; [reflexivity|].
  rewrite IH. apply swap_perm.
Qed.

Lemma shuffle_perm {A} (a : list A) (src : RngSource) : shuffle a src ≡ₚ a.
Proof. apply shuffle_loop_perm. Qed.

Lemma give_each_spec (deck : list Card) (hs : list (list Card)) (index : nat) (m : nat) :
  (index + length hs <= length deck)%nat ->
  Forall (fun h => length h = m) hs ->
  exists hs', give_each deck hs index = Some (hs', (index + length hs)%nat) /\
    length hs' = length hs /\ Forall (fun h => length h = S m) hs' /\
    concat hs' ++ drop (index + length hs) deck ≡ₚ concat hs ++ drop index deck.
Proof.
  revert index; induction hs as [|h hs IH]; intros index Hlen Hall; simpl.
  - exists []. rewrite Nat.add_0_r. auto.
  - inversion Hall as [|? ? Hh Hhs]; subst.
    destruct (lookup_lt_is_Some_2 deck index) as [c Hc]; [simpl in Hlen; lia|].
    rewrite Hc. simpl.
    destruct (IH (S index)) as (hs' & E & Hl & Hf & Hp); [simpl in Hlen; lia|exact Hhs|].
    rewrite E. simpl. rewrite Nat.add_succ_r.
    eexists; split; [reflexivity|]. split; [simpl; congruence|]. split.
    + constructor; [rewrite length_app; simpl; lia|exact Hf].
    + replace (index + S (length hs))%nat with (S index + length hs)%nat by lia.
      simpl concat. rewrite <- !(assoc_L (++)). rewrite Hp.
      rewrite (drop_S deck c index Hc). simpl.
      rewrite <- Permutation_middle. simpl.
      rewrite (assoc_L (++) h (concat hs) (c :: _)), <- Permutation_middle, <- (assoc_L (++)). reflexivity.
Qed.

Lemma deal_rounds_spec (deck : list Card) (k : nat) :
  forall (hs : list (list Card)) (index m : nat),
  (index + k * length hs <= length deck)%nat ->
  Forall (fun h => length h = m) hs ->
  exists hs', deal_rounds deck hs index k = Some (hs', (index + k * length hs)%nat) /\
    length hs' = length hs /\ Forall (fun h => length h = (m + k)%nat) hs' /\
    concat hs' ++ drop (index + k * length hs) deck ≡ₚ concat hs ++ drop index deck.
Proof.
  induction k as [|k IH]; intros hs index m Hlen Hall; simpl.
  - exists hs. rewrite !Nat.add_0_r. auto.
  - destruct (give_each_spec deck hs index m) as (hs1 & E1 & L1 & F1 & P1); [lia|exact Hall|].
    rewrite E1. simpl.
    destruct (IH hs1 (index + length hs)%nat (S m)) as (hs2 & E2 & L2 & F2 & P2);
      [rewrite L1; lia|exact F1|].
    rewrite L1 in E2, P2.
    replace (index + length hs + k * length hs)%nat with (index + (length hs + k * length hs))%nat
      in E2, P2 by lia.
    exists hs2. split; [exact E2|]. split; [congruence|]. split.
    + eapply Forall_impl; [exact F2|]. simpl. intros h Hh. lia.
    + rewrite P2. exact P1.
Qed.

Lemma deal_spec (deck : list Card) (n : nat) (handSize : Z) (startDiscard : bool) :
  (n * Z.to_nat handSize <= length deck)%nat ->
  exists d, deal deck n handSize startDiscard = Some d /\
    length (dealt_hands d) = n /\
    Forall (fun h => length h = Z.to_nat handSize) (dealt_hands d) /\
    concat (dealt_hands d) ++ dealt_drawPile d ++ dealt_discardPile d ≡ₚ deck.
Proof.
  intros Hlen. unfold deal.
  destruct (deal_rounds_spec deck (Z.to_nat handSize) (repeat [] n) 0 0)
    as (hs & E & L & F & P).
  { rewrite repeat_length. lia. }
  { apply Forall_forall. intros h Hh. apply list_elem_of_In, repeat_spec in Hh. subst. reflexivity. }
  rewrite E. simpl. rewrite repeat_length in *. simpl in F.
  assert (Hc : concat (repeat ([] : list Card) n) = []) by (clear; induction n as [|n IHn]; simpl; auto).
  rewrite Hc, drop_0 in P. simpl in P.
  destruct (drop (Z.to_nat handSize * n) deck) as [|c rest] eqn:Ed;
    [|destruct startDiscard].
  all: eexists; split; [reflexivity|]; simpl; split; [congruence|]; split; [exact F|].
  all: rewrite <- P; try reflexivity.
  all: apply Permutation_app_head; rewrite ?app_nil_r; try reflexivity; symmetry; apply Permutation_cons_append.
Qed.

Lemma give_each_lengths (deck : list Card) (hs hs' : list (list Card)) (index index' m : nat) :
  give_each deck hs index = Some (hs', index') ->
  Forall (fun h => length h = m) hs -> Forall (fun h => length h = S m) hs'.
Proof.
  revert index hs'; induction hs as [|h hs IH]; intros index hs' E Hf; simpl in E.
  - injection E as <- <-. constructor.
  - destruct (deck !! index) as [c|]; [|discriminate]. simpl in E.
    destruct (give_each deck hs (S index)) as [[hs1 i1]|] eqn:E1; [|discriminate].
    simpl in E. injection E as <- <-. inversion Hf; subst.
    constructor; [rewrite length_app; simpl; lia|]. eapply IH; eauto.
Qed.

Lemma deal_rounds_lengths (deck : list Card) (k : nat) :
  forall (hs hs' : list (list Card)) (index index' m : nat),
  deal_rounds deck hs index k = Some (hs', index') ->
  Forall (fun h => length h = m) hs -> Forall (fun h => length h = (m + k)%nat) hs'.
Proof.
  induction k as [|k IH]; intros hs hs' index index' m E Hf; simpl in E.
  - injection E as <- <-. eapply Forall_impl; [exact Hf|]. simpl. intros; lia.
  - destruct (give_each deck hs index) as [[hs1 i1]|] eqn:E1; [|discriminate]. simpl in E.
    pose proof (give_each_lengths _ _ _ _ _ _ E1 Hf) as F1.
    eapply Forall_impl; [eapply IH; eauto|]. simpl. intros; lia.
Qed.

Lemma deal_some_lengths (deck : list Card) (n : nat) (handSize : Z) (startDiscard : bool) (d : Dealt) :
  deal deck n handSize startDiscard = Some d ->
  Forall (fun h => length h = Z.to_nat handSize) (dealt_hands d).
Proof.
  unfold deal. intros E.
  destruct (deal_rounds deck (repeat [] n) 0 (Z.to_nat handSize)) as [[hs idx]|] eqn:E1;
    [|discriminate].
  simpl in E.
  assert (F : Forall (fun h => length h = Z.to_nat handSize) hs).
  { eapply (deal_rounds_lengths _ _ _ _ _ _ 0 E1).
    apply Forall_forall. intros h Hh. apply list_elem_of_In, repeat_spec in Hh. subst. reflexivity. }
  destruct (drop idx deck) as [|c rest]; [|destruct startDiscard]; injection E as <-; exact F.
Qed.

Lemma zip_with_set_hand (hs : list (list Card)) (ps : list PlayerState) :
  length hs = length ps ->
  map hand (zip_with set_hand hs ps) = hs /\
  map (fun p => (player_id p, name p, score p)) (zip_with set_hand hs ps) =
  map (fun p => (player_id p, name p, score p)) ps.
Proof.
  revert ps; induction hs as [|h hs IH]; intros [|p ps] Hl; simpl in *; try lia; auto.
  destruct (IH ps) as [IH1 IH2]; [lia|]. rewrite IH1, IH2. auto.
Qed.

Lemma defaultDeck_length : length defaultDeck = 116%nat.
Proof. vm_compute. reflexivity. Qed.

(** ** C5 *)

Lemma afterDiscard_round (st : GameState) (pid : string) (n : nat) :
  round (afterDiscard st pid n) = round st.
Proof.
  unfold afterDiscard, triggerOutIfNeeded, consumeOutTurnIfNeeded, endRound, advancePlayer.
  repeat (case_match; simpl); reflexivity.
Qed.

Lemma onDiscardSelected_round (s s' : GameState) :
  onDiscardSelected s = Some s' -> round s' = round s.
Proof.
  intros H. unfold onDiscardSelected in H.
  destruct (negb (canDiscard s)); [injection H as <-; auto|].
  destruct (current_player s) as [me|]; [|discriminate]. cbn [mbind option_bind] in H.
  destruct (selectedCardIds s) as [|cid [|? ?]]; [injection H as <-; auto| |injection H as <-; auto].
  destruct (find _ (hand me)); [|injection H as <-; auto].
  cbv zeta in H.
  match type of H with context [afterDiscard ?b ?p ?n] =>
    pose proof (afterDiscard_round b p n) as Hr;
    set (r := afterDiscard b p n) in * end.
  destruct (negb (truthy (message r))).
  - destruct (players r !! currentPlayerIndex r); cbn in H; [|discriminate].
    injection H as <-. exact Hr.
  - injection H as <-. exact Hr.
Qed.

(** C5: the round number only changes through [nextRound], which the view
    offers only in ROUND_END. Below round 11 (and with enough cards for the
    deal) [nextRound] moves to round + 1 with its [getRoundRule] rule, deals
    hands of [round + 3] cards from a shuffled fresh deck, keeps every
    player's id, name and score, clears the melds and the out trigger, and
    resets the phase to NEED_DRAW and the status to PLAYING. From round 11 on
    it ends the game (GAME_OVER) and keeps the round number. *)
Theorem nextRound_transition (s : GameState) (o : RoundOptions) (ambient : nat -> nat)
    (Hround : 1 <= round s) :
  (forall s', ui_step s s' -> round s' <> round s -> status s = ROUND_END) /\
  (round s < FiveCrownsCompat.totalRounds ->
   (length (players s) * Z.to_nat (round s + 3) <= length defaultDeck)%nat ->
   exists s' d, nextRound s o ambient = Some s' /\
     round s' = round s + 1 /\ getRoundRule (round s') = Some (rule s') /\
     deal (shuffle defaultDeck (options_rng o ambient)) (length (players s))
       (handSize (rule s')) (default true (opt_startDiscard o)) = Some d /\
     map hand (players s') = dealt_hands d /\
     drawPile s' = dealt_drawPile d /\ discardPile s' = dealt_discardPile d /\
     map (fun p => (player_id p, name p, score p)) (players s') =
       map (fun p => (player_id p, name p, score p)) (players s) /\
     Forall (fun p => length (hand p) = Z.to_nat (round s + 3)) (players s') /\
     melds s' = [] /\ outTriggeredByPlayerId s' = None /\
     turnsRemainingAfterOut s' = None /\
     turnPhase s' = NEED_DRAW /\ status s' = PLAYING) /\
  (FiveCrownsCompat.totalRounds <= round s ->
   exists s', nextRound s o ambient = Some s' /\
     status s' = GAME_OVER /\ round s' = round s /\ players s' = players s).
Proof.
  split; [|split].
  - intros s' (a & Havail & Hact) Hne.
    destruct a eqn:Ea.
    all: try (destruct (other_handlers_keep_round a s s') as (_ & _ & E3);
              [subst a; exact I | subst a; exact Hact | contradiction]).
    + simpl in Hact. apply onDiscardSelected_round in Hact. contradiction.
    + simpl in Havail. tauto.
  - intros Hlt Hdeal.
    assert (E1 : (FiveCrownsCompat.totalRounds <=? round s) = false)
      by (apply Z.leb_gt; exact Hlt).
    assert (E2 : (round s + 1 <? 1) = false) by (apply Z.ltb_ge; lia).
    assert (E3 : (FiveCrownsCompat.totalRounds <? round s + 1) = false)
      by (unfold FiveCrownsCompat.totalRounds in *; apply Z.ltb_ge; lia).
    unfold nextRound, getRoundRule at 1. rewrite E1, E2, E3. cbn [orb mbind option_bind].
    set (rule' := mkRoundRule (round s + 1) (round s + 1 + 2) (round s + 1 + 2)).
    set (deck := shuffle defaultDeck (options_rng o ambient)).
    destruct (deal_spec deck (length (players s)) (round s + 1 + 2)
                (default true (opt_startDiscard o))) as (d & Ed & Ld & Fd & Pd).
    { subst deck. rewrite (Permutation_length (shuffle_perm _ _)).
      replace (round s + 1 + 2) with (round s + 3) by lia. exact Hdeal. }
    cbn [mbind option_bind]. change (handSize rule') with (round s + 1 + 2). rewrite Ed. cbn [mbind option_bind].
    destruct (zip_with_set_hand (dealt_hands d) (players s) Ld) as [Z1 Z2].
    eexists _, d. split; [reflexivity|]. cbn.
    split; [reflexivity|]. split.
    { unfold getRoundRule. rewrite E2, E3. reflexivity. }
    split; [exact Ed|]. split; [exact Z1|]. split; [reflexivity|]. split; [reflexivity|].
    split; [exact Z2|]. split; [|auto].
    rewrite <- Forall_map with (f := hand) (P := fun h => length h = Z.to_nat (round s + 3)).
    rewrite Z1. replace (round s + 3) with (round s + 1 + 2) by lia. exact Fd.
  - intros Hge. unfold nextRound. rewrite (proj2 (Z.leb_le _ _) Hge).
    eexists; split; [reflexivity|]. cbn. auto.
Qed.

Lemma nextRound_transition_witness :
  exists s', nextRound round1_over (mkRoundOptions (Some 42) None) no_swap_pick = Some s' /\
             round s' = 2 /\ status s' = PLAYING.
Proof.
  destruct (nextRound_transition round1_over (mkRoundOptions (Some 42) None) no_swap_pick)
    as (_ & H2 & _).
  - vm_compute. discriminate.
  - destruct H2 as (s' & d & E & R & _ & _ & _ & _ & _ & _ & _ & _ & _ & _ & _ & St).
    + vm_compute. reflexivity.
    + vm_compute. lia.
    + exists s'. split; [exact E|]. split; [|exact St]. rewrite R. reflexivity.
Defined.

(** ** Card ids stay distinct *)

Lemma NoDup_ids_submseteq (l1 l2 : list Card) :
  l1 ⊆+ l2 -> NoDup (map card_id l2) -> NoDup (map card_id l1).
Proof.
  intros Hs Hn. destruct (submseteq_Permutation _ _ Hs) as [k Hk].
  apply (Permutation_map card_id) in Hk. rewrite Hk, map_app in Hn.
  apply NoDup_app in Hn. tauto.
Qed.

Lemma list_filter_sublist {A} (f : A -> bool) (l : list A) : List.filter f l `sublist_of` l.
Proof.
  induction l as [|x l IH]; simpl; [constructor|].
  destruct (f x); [apply sublist_skip | apply sublist_cons]; exact IH.
Qed.

(** Replacing one player's hand by a sub-multiset of it. *)
Lemma map_at_hands_submseteq (f : PlayerState -> PlayerState) (i : nat) (ps : list PlayerState) :
  (forall p, ps !! i = Some p -> hand (f p) ⊆+ hand p) ->
  concat (map hand (map_at f i ps)) ⊆+ concat (map hand ps).
Proof.
  revert i; induction ps as [|p ps IH]; intros [|i] Hf; simpl; [reflexivity|reflexivity| |].
  - apply submseteq_app; [apply Hf; reflexivity|reflexivity].
  - apply submseteq_app; [reflexivity|]. apply IH. intros q Hq. apply Hf. exact Hq.
Qed.

Lemma map_at_hands_perm (f : PlayerState -> PlayerState) (i : nat) (ps : list PlayerState) :
  (forall p, ps !! i = Some p -> hand (f p) ≡ₚ hand p) ->
  concat (map hand (map_at f i ps)) ≡ₚ concat (map hand ps).
Proof.
  revert i; induction ps as [|p ps IH]; intros [|i] Hf; simpl; [reflexivity|reflexivity| |].
  - rewrite (Hf p) by reflexivity. reflexivity.
  - rewrite IH; [reflexivity|]. intros q Hq. apply Hf. exact Hq.
Qed.

(** Adding a card to the end of one player's hand. *)
Lemma map_at_hands_add (c : Card) (i : nat) (ps : list PlayerState) :
  (i < length ps)%nat ->
  concat (map hand (map_at (fun p => set_hand (hand p ++ [c]) p) i ps)) ≡ₚ
  c :: concat (map hand ps).
Proof.
  revert i; induction ps as [|p ps IH]; intros [|i] Hi; simpl in *; try lia.
  - rewrite <- (assoc_L (++)). simpl. rewrite <- Permutation_middle. reflexivity.
  - rewrite IH by lia. symmetry. apply Permutation_middle.
Qed.

Lemma insert_by_perm {A} (cmp : A -> A -> Z) (x : A) (l : list A) : insert_by cmp x l ≡ₚ x :: l.
Proof.
  induction l as [|y l IH]; simpl; [reflexivity|].
  destruct (cmp y x <=? 0); [|reflexivity].
  rewrite IH. apply Permutation_swap.
Qed.

Lemma stable_sort_perm {A} (cmp : A -> A -> Z) (l : list A) : stable_sort cmp l ≡ₚ l.
Proof.
  unfold stable_sort.
  assert (H : forall acc, fold_left (fun acc x => insert_by cmp x acc) l acc ≡ₚ acc ++ l).
  { induction l as [|x l IH]; intros acc; simpl; [rewrite app_nil_r; reflexivity|].
    rewrite IH, insert_by_perm. apply Permutation_middle. }
  rewrite H. reflexivity.
Qed.

Lemma afterDiscard_table (st : GameState) (pid : string) (n : nat) :
  table_cards (afterDiscard st pid n) = table_cards st.
Proof.
  unfold table_cards.
  assert (Hh : map hand (players (afterDiscard st pid n)) = map hand (players st)).
  { unfold afterDiscard, triggerOutIfNeeded, consumeOutTurnIfNeeded, endRound, advancePlayer.
    repeat (case_match; simpl); try reflexivity.
    all: rewrite map_map; simpl; reflexivity. }
  rewrite Hh. f_equal.
  unfold afterDiscard, triggerOutIfNeeded, consumeOutTurnIfNeeded, endRound, advancePlayer.
  repeat (case_match; simpl); reflexivity.
Qed.

Lemma give_each_some (deck : list Card) (hs hs' : list (list Card)) (index index' : nat) :
  give_each deck hs index = Some (hs', index') ->
  length hs' = length hs /\
  concat hs' ++ drop index' deck ≡ₚ concat hs ++ drop index deck.
Proof.
  revert index hs'; induction hs as [|h hs IH]; intros index hs' E; simpl in E.
  - injection E as <- <-. auto.
  - destruct (deck !! index) as [c|] eqn:Hc; [|discriminate]. simpl in E.
    destruct (give_each deck hs (S index)) as [[hs1 i1]|] eqn:E1; [|discriminate].
    simpl in E. injection E as <- <-.
    destruct (IH _ _ E1) as [L P]. split; [simpl; congruence|].
    simpl. rewrite <- !(assoc_L (++)), P, (drop_S deck c index Hc). simpl.
    solve_Permutation.
Qed.

Lemma deal_rounds_some (deck : list Card) (k : nat) :
  forall (hs hs' : list (list Card)) (index index' : nat),
  deal_rounds deck hs index k = Some (hs', index') ->
  length hs' = length hs /\
  concat hs' ++ drop index' deck ≡ₚ concat hs ++ drop index deck.
Proof.
  induction k as [|k IH]; intros hs hs' index index' E; simpl in E.
  - injection E as <- <-. auto.
  - destruct (give_each deck hs index) as [[hs1 i1]|] eqn:E1; [|discriminate].
    simpl in E. destruct (give_each_some _ _ _ _ _ E1) as [L1 P1].
    destruct (IH _ _ _ _ E) as [L2 P2]. split; [congruence|]. rewrite P2. exact P1.
Qed.

Lemma deal_some (deck : list Card) (n : nat) (handSize : Z) (startDiscard : bool) (d : Dealt) :
  deal deck n handSize startDiscard = Some d ->
  length (dealt_hands d) = n /\
  concat (dealt_hands d) ++ dealt_drawPile d ++ dealt_discardPile d ≡ₚ deck.
Proof.
  unfold deal. intros E.
  destruct (deal_rounds deck (repeat [] n) 0 (Z.to_nat handSize)) as [[hs idx]|] eqn:E1;
    [|discriminate].
  simpl in E. destruct (deal_rounds_some _ _ _ _ _ _ E1) as [L P].
  rewrite repeat_length in L.
  assert (Hc : concat (repeat ([] : list Card) n) = []) by (clear; induction n as [|n IHn]; simpl; auto).
  rewrite Hc, drop_0 in P. simpl in P.
  destruct (drop idx deck) as [|c rest] eqn:Ed; [|destruct startDiscard];
    injection E as <-; simpl; split; auto; rewrite <- P; solve_Permutation.
Qed.

Lemma mk_players_hands (names : list string) (hands : list (list Card)) (i : nat) :
  length hands = (i + length names)%nat ->
  map hand (mk_players i names hands) = drop i hands.
Proof.
  revert i; induction names as [|nm names IH]; intros i Hl; simpl in *.
  - rewrite drop_ge by lia. reflexivity.
  - rewrite IH by lia.
    destruct (lookup_lt_is_Some_2 hands i) as [h Hh]; [lia|]. rewrite Hh. simpl.
    rewrite (drop_S hands h i Hh). reflexivity.
Qed.

Lemma newGame_table (o : NewGameOptions) (ambient : nat -> nat) (s : GameState) :
  newGame o ambient = Some s -> table_cards s ≡ₚ defaultDeck.
Proof.
  unfold newGame. simpl.
  destruct (Nat.ltb _ 2); [discriminate|].
  match goal with |- context [deal ?dk ?n ?h ?sd] =>
    destruct (deal dk n h sd) as [d|] eqn:Ed; [|discriminate] end.
  simpl. intros E. injection E as <-.
  destruct (deal_some _ _ _ _ _ Ed) as [L P].
  unfold table_cards. simpl. rewrite mk_players_hands by lia. rewrite drop_0, P.
  apply shuffle_perm.
Qed.

Lemma defaultDeck_ids_NoDup : NoDup (map card_id defaultDeck).
Proof. apply (bool_decide_eq_true_1 _). vm_compute. reflexivity. Qed.

Lemma remove_cards_sublist (h cards : list Card) : remove_cards h cards `sublist_of` h.
Proof. apply list_filter_sublist. Qed.

Lemma discard_hand_submseteq (h : list Card) (cid : string) (card : Card) :
  find (fun c => String.eqb (card_id c) cid) h = Some card ->
  List.filter (fun c => negb (String.eqb (card_id c) cid)) h ++ [card] ⊆+ h.
Proof.
  intros Hf. apply find_some in Hf as [Hin Heq].
  apply in_split in Hin as (l1 & l2 & ->).
  rewrite List.filter_app. simpl. rewrite Heq. simpl.
  rewrite <- (assoc_L (++)). simpl.
  apply submseteq_app; [apply sublist_submseteq, list_filter_sublist|].
  rewrite <- Permutation_cons_append. apply submseteq_skip.
  apply sublist_submseteq, list_filter_sublist.
Qed.

Lemma map_at_hands_discard (f : PlayerState -> PlayerState) (c : Card) (i : nat)
    (ps : list PlayerState) (p : PlayerState) :
  ps !! i = Some p -> hand (f p) ++ [c] ⊆+ hand p ->
  concat (map hand (map_at f i ps)) ++ [c] ⊆+ concat (map hand ps).
Proof.
  revert i; induction ps as [|q ps IH]; intros [|i] Hp Hf; simpl in *; try discriminate.
  - injection Hp as ->. rewrite <- (assoc_L (++)).
    rewrite (Permutation_app_comm (concat _) [c]), (assoc_L (++)).
    apply submseteq_app; [exact Hf|reflexivity].
  - rewrite <- (assoc_L (++)). apply submseteq_app; [reflexivity|]. eapply IH; eauto.
Qed.

Ltac table_same := left; unfold table_cards; simpl; reflexivity.

Lemma act_table (a : Action) (s s' : GameState) :
  act a s = Some s' -> table_cards s' ⊆+ table_cards s \/ table_cards s' ≡ₚ defaultDeck.
Proof.
  destruct a as [cid| | | |amb| |now|mid| |amb]; simpl.
  - (* toggle *) unfold onToggleSelect. intros H.
    destruct (negb (canAct s)); injection H as <-; table_same.
  - unfold onClearSelection. intros H. injection H as <-. table_same.
  - unfold onSortRank. intros H. destruct (negb (canAct s)); injection H as <-; [table_same|].
    left. unfold table_cards. simpl. apply submseteq_app; [|reflexivity].
    apply Permutation_submseteq, map_at_hands_perm. intros p _. simpl. apply stable_sort_perm.
  - unfold onSortSuit. intros H. destruct (negb (canAct s)); injection H as <-; [table_same|].
    left. unfold table_cards. simpl. apply submseteq_app; [|reflexivity].
    apply Permutation_submseteq, map_at_hands_perm. intros p _. simpl. apply stable_sort_perm.
  - unfold onDrawFromDeck. intros H. destruct (negb (canDraw s)); [injection H as <-; table_same|].
    set (rd := if Nat.eqb (length (drawPile s)) 0
               then recycleDiscardIntoDraw (drawPile s) (discardPile s) (Ambient amb)
               else (drawPile s, discardPile s)) in H.
    assert (Hrd : fst rd ++ snd rd ≡ₚ drawPile s ++ discardPile s).
    { subst rd. destruct (Nat.eqb (length (drawPile s)) 0) eqn:E0; [|reflexivity].
      unfold recycleDiscardIntoDraw. rewrite E0. cbn [negb].
      destruct (Nat.leb _ 1); [reflexivity|].
      destruct (last (discardPile s)) as [top|] eqn:Hl; [|reflexivity]. simpl.
      rewrite shuffle_perm. apply Nat.eqb_eq, nil_length_inv in E0. rewrite E0. simpl.
      apply last_Some in Hl as [l' Hl']. rewrite Hl', removelast_last. reflexivity. }
    destruct rd as [dp0 dc0]. simpl in Hrd.
    destruct dp0 as [|card dp1]; simpl in H; [discriminate|].
    destruct (map_at _ _ (players s) !! currentPlayerIndex s) eqn:Hme; [|discriminate].
    simpl in H. injection H as <-.
    left. unfold table_cards. simpl.
    assert (Hlt : (currentPlayerIndex s < length (players s))%nat).
    { apply lookup_lt_Some in Hme. rewrite map_at_length in Hme. exact Hme. }
    rewrite map_at_hands_add by exact Hlt.
    apply Permutation_submseteq. rewrite <- Hrd. solve_Permutation.
  - unfold onDrawFromDiscard. intros H.
    destruct (negb (canDraw s)); [injection H as <-; table_same|].
    destruct (Nat.eqb (length (discardPile s)) 0); [injection H as <-; table_same|].
    unfold takeDiscardTop in H.
    destruct (last (discardPile s)) as [card|] eqn:Hl; [|discriminate]. simpl in H.
    destruct (map_at _ _ (players s) !! currentPlayerIndex s) eqn:Hme; [|discriminate].
    simpl in H. injection H as <-.
    left. unfold table_cards. simpl.
    assert (Hlt : (currentPlayerIndex s < length (players s))%nat).
    { apply lookup_lt_Some in Hme. rewrite map_at_length in Hme. exact Hme. }
    rewrite map_at_hands_add by exact Hlt.
    apply last_Some in Hl as [l' Hl']. rewrite Hl', removelast_last.
    apply Permutation_submseteq. solve_Permutation.
  - unfold onSubmitMeld. intros H. handler_cases; try table_same;
      left; unfold table_cards; simpl; apply submseteq_app; try reflexivity;
      apply map_at_hands_submseteq; intros q Hq; unfold current_player in *; simplify_eq;
      simpl; apply sublist_submseteq, remove_cards_sublist.
  - unfold onLayoffToMeld. intros H. handler_cases; try table_same;
      left; unfold table_cards; simpl; apply submseteq_app; try reflexivity;
      apply map_at_hands_submseteq; intros q Hq; unfold current_player in *; simplify_eq;
      simpl; apply sublist_submseteq, remove_cards_sublist.
  - unfold onDiscardSelected. intros H.
    destruct (negb (canDiscard s)); [injection H as <-; table_same|].
    destruct (current_player s) as [me|] eqn:Hme; [|discriminate]. cbn [mbind option_bind] in H.
    destruct (selectedCardIds s) as [|cid [|? ?]];
      [injection H as <-; table_same| |injection H as <-; table_same].
    destruct (find _ (hand me)) as [card|] eqn:Hf; [|injection H as <-; table_same].
    cbv zeta in H.
    match type of H with context [afterDiscard ?b ?p ?n] =>
      pose proof (afterDiscard_table b p n) as Ht;
      set (r := afterDiscard b p n) in * end.
    assert (Hr : table_cards r ⊆+ table_cards s).
    { rewrite Ht. unfold table_cards. simpl. unfold discardOne.
      match goal with |- ?A ++ ?B ++ ?C ++ [?c] ⊆+ _ =>
        transitivity ((A ++ [c]) ++ B ++ C);
        [apply Permutation_submseteq; solve_Permutation|] end.
      apply submseteq_app; [|reflexivity].
      eapply map_at_hands_discard; [exact Hme|]. simpl.
      apply discard_hand_submseteq. exact Hf. }
    left. destruct (negb (truthy (message r))).
    + destruct (players r !! currentPlayerIndex r); cbn in H; [|discriminate].
      injection H as <-. exact Hr.
    + injection H as <-. exact Hr.
  - unfold onNextRound, nextRound. intros H.
    destruct (_ <=? _); [injection H as <-; table_same|].
    destruct (getRoundRule _) as [rl|]; [|discriminate]. simpl in H.
    match type of H with context [deal ?dk ?n ?h ?sd] =>
      destruct (deal dk n h sd) as [d|] eqn:Ed; [|discriminate] end.
    simpl in H. injection H as <-.
    destruct (deal_some _ _ _ _ _ Ed) as [L P].
    right. unfold table_cards. simpl.
    destruct (zip_with_set_hand (dealt_hands d) (players s) L) as [Z1 _].
    rewrite Z1, P. apply shuffle_perm.
Qed.

Lemma reachable_table_ids (s : GameState) :
  reachable s -> NoDup (map card_id (table_cards s)).
Proof.
  induction 1 as [o amb s _ Hnew | s s' _ IH (a & _ & Hact)].
  - apply newGame_table in Hnew.
    rewrite (Permutation_map card_id Hnew). apply defaultDeck_ids_NoDup.
  - destruct (act_table a s s' Hact) as [Hs|Hp].
    + eapply NoDup_ids_submseteq; eauto.
    + rewrite (Permutation_map card_id Hp). apply defaultDeck_ids_NoDup.
Qed.

Lemma hand_sublist_table (ps : list PlayerState) (i : nat) (p : PlayerState) :
  ps !! i = Some p -> hand p `sublist_of` concat (map hand ps).
Proof.
  revert i; induction ps as [|q ps IH]; intros [|i] Hp; simpl in *; try discriminate.
  - injection Hp as ->. apply sublist_inserts_r. reflexivity.
  - apply sublist_inserts_l. eapply IH; eauto.
Qed.

Lemma reachable_hand_ids (s : GameState) (me : PlayerState) :
  reachable s -> current_player s = Some me -> NoDup (map card_id (hand me)).
Proof.
  intros Hr Hme. apply reachable_table_ids in Hr.
  eapply NoDup_ids_submseteq; [|exact Hr].
  unfold table_cards. apply sublist_submseteq, sublist_inserts_r.
  eapply hand_sublist_table. exact Hme.
Qed.

Lemma filter_partition_length {A} (f : A -> bool) (l : list A) :
  length l = (length (List.filter (fun x => negb (f x)) l) + length (List.filter f l))%nat.
Proof. induction l as [|x l IH]; simpl; [reflexivity|]. destruct (f x); simpl; lia. Qed.

Lemma remove_cards_length (h added : list Card) :
  NoDup (map card_id h) ->
  (length h <= length (remove_cards h added) + length added)%nat.
Proof.
  intros Hn. unfold remove_cards.
  set (f := fun c => existsb (String.eqb (card_id c)) (map card_id added)).
  rewrite (filter_partition_length f h) at 1.
  apply Nat.add_le_mono_l.
  rewrite <- (length_map card_id (List.filter f h)), <- (length_map card_id added).
  apply NoDup_incl_length.
  - apply NoDup_ListNoDup.
    eapply NoDup_ids_submseteq; [|exact Hn]. apply sublist_submseteq, list_filter_sublist.
  - intros x Hx. apply in_map_iff in Hx as (c & <- & Hc).
    apply filter_In in Hc as [_ Hc]. subst f. simpl in Hc.
    apply existsb_exists in Hc as (y & Hy & Heq). apply String.eqb_eq in Heq. subst. exact Hy.
Qed.

(** ** C6 *)

Lemma canMeld_true (s : GameState) :
  status s = PLAYING -> turnPhase s = NEED_DISCARD -> canMeld s = true.
Proof. intros H1 H2. unfold canMeld, canAct, phase_is. rewrite H1, H2. reflexivity. Qed.

Lemma onSubmitMeld_reject (now : Z) (s : GameState) (me : PlayerState) :
  canMeld s = true -> current_player s = Some me ->
  let cards := selected_from_hand (hand me) (selectedCardIds s) in
  (is_ok (validateMeld cards BOOK (rule s)) = false /\
   is_ok (validateMeld cards RUN (rule s)) = false) \/
  remove_cards (hand me) cards = [] ->
  exists msg, onSubmitMeld now s = Some (set_message (Some msg) s).
Proof.
  intros Hc Hme cards Hrej. unfold onSubmitMeld. rewrite Hc, Hme. cbn [negb mbind option_bind].
  fold cards.
  destruct (Nat.eqb (length cards) 0); [eauto|].
  destruct (is_ok (validateMeld cards BOOK (rule s))) eqn:Eb.
  - destruct (validateMeld cards BOOK (rule s)) as [|reason]; [|eauto].
    destruct Hrej as [[Hb _]|Hnil]; [discriminate|]. rewrite Hnil. simpl. eauto.
  - destruct (validateMeld cards RUN (rule s)) as [|reason] eqn:Er; [|eauto].
    destruct Hrej as [[_ Hr]|Hnil]; [discriminate|]. rewrite Hnil. simpl. eauto.
Qed.

Lemma onLayoffToMeld_reject (meldId : string) (s : GameState) (me : PlayerState) :
  canMeld s = true -> current_player s = Some me -> NoDup (map card_id (hand me)) ->
  let added := selected_from_hand (hand me) (selectedCardIds s) in
  (forall target, find (fun m => String.eqb (meld_id m) meldId) (melds s) = Some target ->
     is_ok (validateLayoff (meld_type target) (meld_cards target) added (rule s)) = false) \/
  remove_cards (hand me) added = [] ->
  exists msg, onLayoffToMeld meldId s = Some (set_message (Some msg) s).
Proof.
  intros Hc Hme Hn added Hrej. unfold onLayoffToMeld. unfold canMeld in Hc.
  apply andb_prop in Hc as [Hc1 Hc2]. unfold canMeld. rewrite Hc1, Hc2.
  cbn [negb orb andb]. rewrite Hme. cbn [mbind option_bind]. fold added.
  destruct (Nat.eqb (length (selectedCardIds s)) 0); [eauto|].
  destruct (Nat.eqb (length added) 0); [eauto|].
  destruct (Z.of_nat (length (hand me)) - Z.of_nat (length added) <? 1) eqn:Eg; [eauto|].
  destruct (find (fun m => String.eqb (meld_id m) meldId) (melds s)) as [target|] eqn:Ef; [|eauto].
  destruct (validateLayoff (meld_type target) (meld_cards target) added (rule s)) as [|reason] eqn:Ev;
    [|eauto].
  exfalso. destruct Hrej as [Hv|Hnil].
  - specialize (Hv target eq_refl). rewrite Ev in Hv. discriminate.
  - pose proof (remove_cards_length (hand me) added Hn) as Hl. rewrite Hnil in Hl. simpl in Hl.
    apply Z.ltb_ge in Eg. lia.
Qed.

Lemma act_no_new_empty_hand (a : Action) (s s' : GameState) (i : nat) (p' : PlayerState) :
  reachable s -> match a with DiscardSelected => False | _ => True end ->
  act a s = Some s' -> players s' !! i = Some p' -> hand p' = [] ->
  exists p, players s !! i = Some p /\ hand p = [].
Proof.
  intros Hr Ha Hact Hi Hh.
  destruct a; simpl in Hact; try contradiction.
  all: try unfold onToggleSelect in Hact; try unfold onClearSelection in Hact;
       try unfold onSortRank in Hact; try unfold onSortSuit in Hact;
       try unfold onDrawFromDeck in Hact; try unfold onDrawFromDiscard in Hact;
       try unfold onSubmitMeld in Hact; try unfold onLayoffToMeld in Hact;
       try unfold onNextRound, nextRound in Hact.
  all: handler_cases.
  all: try (eexists; split; [exact Hi | exact Hh]).
  all: try match goal with H : map_at ?f ?j _ !! _ = Some ?y |- _ =>
              apply map_at_lookup_inv in H as (x & Hx & [->|[-> ->]]); [eauto|] end.
  (* sorting *)
  1,2: simpl in Hh; unfold sortByRankThenSuit, sortBySuitThenRank in Hh;
       exists x; split; [exact Hx|]; apply nil_length_inv;
       match type of Hh with stable_sort ?c _ = [] =>
         rewrite <- (Permutation_length (stable_sort_perm c (hand x))), Hh; reflexivity end.
  (* drawing *)
  1,2,3: simpl in Hh; destruct (hand x); discriminate.
  (* meld *)
  1,2: simpl in Hh; match goal with H : (length _ <? 1)%nat = false |- _ => rewrite Hh in H; discriminate end.
  (* lay-off *)
  - simpl in Hh. exfalso.
    match goal with Hm : current_player s = Some ?q |- _ =>
      unfold current_player in Hm; rewrite Hx in Hm; injection Hm as <-;
      pose proof (reachable_hand_ids s x Hr Hx) as Hn end.
    pose proof (remove_cards_length (hand x) (selected_from_hand (hand x) (selectedCardIds s)) Hn) as Hl.
    rewrite Hh in Hl. simpl in Hl.
    match goal with H : (_ - _ <? 1) = false |- _ => apply Z.ltb_ge in H end. lia.
  (* next round *)
  - exfalso. rewrite lookup_zip_with in Hi.
    destruct (dealt_hands d !! i) as [h|] eqn:Eh; [|discriminate]. simpl in Hi.
    destruct (players s !! i) as [q|]; [|discriminate]. simpl in Hi. injection Hi as <-.
    simpl in Hh. subst h.
    match goal with Hd : deal _ _ _ _ = Some d |- _ => pose proof (deal_some_lengths _ _ _ _ _ Hd) as Fd end.
    pose proof (Forall_lookup_1 _ _ _ _ Fd Eh) as Lh. simpl in Lh.
    match goal with Hg : getRoundRule _ = Some r |- _ =>
      unfold getRoundRule in Hg; destruct (_ || _) eqn:Eo; [discriminate|]; injection Hg as <- end.
    apply orb_false_iff in Eo as [Eo _]. apply Z.ltb_ge in Eo.
    simpl in Lh. lia.
Qed.

Lemma p1_all_selected_reachable : reachable p1_all_selected.
Proof. apply (run_reachable p1_selects_all game0); [exact game0_reachable|reflexivity|vm_compute; reflexivity]. Qed.

(** C6, as stated, fails: rejected melds are not "no state change". P1
    selects all four cards, which form neither a BOOK nor a RUN; the state
    after [onSubmitMeld] differs from the one before in its [message]. *)
Lemma submitMeld_rejection_changes_state :
  reachable p1_all_selected /\ status p1_all_selected = PLAYING /\
  turnPhase p1_all_selected = NEED_DISCARD /\
  (let cards := selected_from_hand (hand p1_player_all) (selectedCardIds p1_all_selected) in
   is_ok (validateMeld cards BOOK (rule p1_all_selected)) = false /\
   is_ok (validateMeld cards RUN (rule p1_all_selected)) = false) /\
  exists s', onSubmitMeld 1 p1_all_selected = Some s' /\ s' <> p1_all_selected /\
    message s' = Some "Invalid meld: Must have enough wilds to fill gaps".
Proof.
  split; [exact p1_all_selected_reachable|].
  split; [reflexivity|]. split; [reflexivity|]. split; [vm_compute; split; reflexivity|].
  eexists. split; [vm_compute; reflexivity|]. split; [|vm_compute; reflexivity].
  intros H. apply (f_equal message) in H. vm_compute in H. discriminate.
Qed.

(** C6 (amended): in a reachable PLAYING state in phase NEED_DISCARD, a
    submit-meld whose selection is neither a BOOK nor a RUN, or whose removal
    would empty the hand, and a lay-off that fails validation or would empty
    the hand, are rejected: the state is unchanged except for [message].
    And no action other than a discard empties a hand that was not already
    empty. *)
Theorem meld_layoff_rejections (s : GameState) (Hreach : reachable s) :
  (status s = PLAYING -> turnPhase s = NEED_DISCARD ->
   forall me, current_player s = Some me ->
   (forall now : Z,
      let cards := selected_from_hand (hand me) (selectedCardIds s) in
      (is_ok (validateMeld cards BOOK (rule s)) = false /\
       is_ok (validateMeld cards RUN (rule s)) = false) \/
      remove_cards (hand me) cards = [] ->
      exists msg, onSubmitMeld now s = Some (set_message (Some msg) s)) /\
   (forall meldId : string,
      let added := selected_from_hand (hand me) (selectedCardIds s) in
      (forall target, find (fun m => String.eqb (meld_id m) meldId) (melds s) = Some target ->
         is_ok (validateLayoff (meld_type target) (meld_cards target) added (rule s)) = false) \/
      remove_cards (hand me) added = [] ->
      exists msg, onLayoffToMeld meldId s = Some (set_message (Some msg) s))) /\
  (forall a s' i p', match a with DiscardSelected => False | _ => True end ->
     act a s = Some s' -> players s' !! i = Some p' -> hand p' = [] ->
     exists p, players s !! i = Some p /\ hand p = []).
Proof.
  split.
  - intros Hst Hph me Hme. pose proof (canMeld_true s Hst Hph) as Hc. split.
    + intros now. apply onSubmitMeld_reject; assumption.
    + intros meldId. apply onLayoffToMeld_reject; try assumption.
      eapply reachable_hand_ids; eassumption.
  - intros a s' i p'. apply act_no_new_empty_hand. exact Hreach.
Qed.

Lemma meld_layoff_rejections_witness :
  exists msg, onSubmitMeld 1 p1_all_selected = Some (set_message (Some msg) p1_all_selected).
Proof.
  destruct (meld_layoff_rejections p1_all_selected p1_all_selected_reachable) as (H1 & _).
  destruct (H1 eq_refl eq_refl p1_player_all eq_refl) as (H2 & _).
  apply (H2 1). left. split; vm_compute; reflexivity.
Defined.

(* ------------------------------------------------------------------ *)
(** ** Further properties: randomness, piles, rules and scoring *)

Lemma mulberry32_calls_range (t : Z) (n : nat) :
  Forall (fun x => 0 <= x < 2 ^ 32) (mulberry32_calls t n).
Proof.
  revert t; induction n as [|n IH]; intros t; simpl; [constructor|].
  constructor; [|apply IH]. unfold mulberry32_value, toUint32. apply Z.mod_pos_bound. lia.
Qed.

(** X1: Every value a mulberry32(seed) generator returns is a numerator in [0, 2^32), so rng() lies in [0, 1). The index floor(rng() * (i + 1)) that shuffle picks with a seeded generator is therefore never above i. *)
Theorem mulberry32_pick_in_range (seed : Z) (n i : nat) :
  Forall (fun x => 0 <= x < 2 ^ 32) (mulberry32 seed n) /\
  (rng_pick (Seeded seed) n i <= i)%nat.
Proof.
  pose proof (mulberry32_calls_range (toUint32 seed) n) as F. split; [exact F|].
  simpl. set (x := nth (n - 1 - i) (mulberry32 seed n) 0).
  assert (Hx : 0 <= x < 2 ^ 32).
  { subst x. destruct (decide (n - 1 - i < length (mulberry32 seed n))%nat) as [Hl|Hl].
    - apply (proj1 (List.Forall_forall _ _) F). apply nth_In. exact Hl.
    - rewrite nth_overflow by lia. lia. }
  assert (0 <= x * Z.of_nat (S i) / 2 ^ 32 < Z.of_nat (S i)).
  { split; [apply Z.div_pos; lia|]. apply Z.div_lt_upper_bound; nia. }
  lia.
Qed.

(** X2: shuffle returns a permutation of its input, with the same length, whatever the random source. *)
Theorem shuffle_is_permutation {A} (arr : list A) (src : RngSource) :
  shuffle arr src ≡ₚ arr /\ length (shuffle arr src) = length arr.
Proof.
  pose proof (shuffle_perm arr src) as P. split; [exact P|]. apply Permutation_length, P.
Qed.

(** X3: drawOne and takeDiscardTop fail on an empty pile. Taking the discard top right after discardOne gives back the discarded card and the previous pile. drawOne takes the first card and takeDiscardTop the last one, and the rest is the remaining pile. *)
Theorem pile_operations (pile : list Card) (c : Card) :
  drawOne [] = None /\ takeDiscardTop [] = None /\
  takeDiscardTop (discardOne pile c) = Some (c, pile) /\
  (forall c' rest, takeDiscardTop pile = Some (c', rest) -> pile = rest ++ [c']) /\
  (forall c' rest, drawOne pile = Some (c', rest) -> pile = c' :: rest).
Proof.
  split; [reflexivity|]. split; [reflexivity|]. split.
  - unfold takeDiscardTop, discardOne. rewrite last_snoc, removelast_last. reflexivity.
  - split.
    + intros c' rest. unfold takeDiscardTop. destruct (last pile) as [t|] eqn:Hl; [|discriminate].
      intros H. injection H as <- <-. apply last_Some in Hl as [l' ->].
      rewrite removelast_last. reflexivity.
    + intros c' rest. destruct pile; simpl; [discriminate|]. intros H. injection H as <- <-. reflexivity.
Qed.

(** X4: recycleDiscardIntoDraw neither loses nor creates cards: the two resulting piles are a permutation of the two input piles. With an empty draw pile and at least two discards, the discard pile keeps only its top card and the rest becomes the draw pile, reordered. In all other cases both piles are returned unchanged. *)
Theorem recycle_conserves (drawPile discardPile : list Card) (src : RngSource) :
  let r := recycleDiscardIntoDraw drawPile discardPile src in
  fst r ++ snd r ≡ₚ drawPile ++ discardPile /\
  (drawPile = [] -> (2 <= length discardPile)%nat ->
     exists top rest, discardPile = rest ++ [top] /\ snd r = [top] /\ fst r ≡ₚ rest) /\
  (drawPile <> [] \/ (length discardPile <= 1)%nat -> r = (drawPile, discardPile)).
Proof.
  unfold recycleDiscardIntoDraw. simpl.
  destruct drawPile as [|c dp].
  - simpl. destruct (Nat.leb (length discardPile) 1) eqn:Hle.
    + apply Nat.leb_le in Hle. split; [reflexivity|]. split; [intros _ H; lia|]. auto.
    + apply Nat.leb_gt in Hle.
      destruct (last discardPile) as [top|] eqn:Hl.
      * apply last_Some in Hl as [rest Hrest]. subst discardPile.
        rewrite removelast_last. simpl.
        split; [rewrite (shuffle_perm rest src); solve_Permutation|]. split.
        -- intros _ _. exists top, rest. split; [reflexivity|]. split; [reflexivity|]. apply shuffle_perm.
        -- intros [H|H]; [congruence|lia].
      * apply last_None in Hl. subst. simpl in Hle. lia.
  - simpl. split; [reflexivity|]. split; [discriminate|]. auto.
Qed.

(** X5: getRoundRule succeeds exactly for rounds 1 to totalRounds (11) and fails otherwise. A returned rule has the given round, hand size round + 2, and that hand size as wild rank, which lies in 3..13 and is never the joker rank. *)
Theorem getRoundRule_range (r : Z) :
  ((exists rule, getRoundRule r = Some rule) <-> 1 <= r <= FiveCrownsCompat.totalRounds) /\
  (forall rule, getRoundRule r = Some rule ->
     rule_round rule = r /\ handSize rule = r + 2 /\ wildRank rule = handSize rule /\
     3 <= wildRank rule <= 13 /\ isJoker (wildRank rule) = false).
Proof.
  unfold getRoundRule, FiveCrownsCompat.totalRounds.
  destruct (r <? 1) eqn:E1, (11 <? r) eqn:E2; simpl;
    rewrite ?Z.ltb_lt, ?Z.ltb_ge in *.
  all: try (split; [split; [intros [? H]; discriminate|lia]|intros ? H; discriminate]).
  split.
  { split; [intros _; lia|]. intros _. eexists. reflexivity. }
  intros rule H. injection H as <-. simpl. unfold isJoker.
  repeat split; lia.
Qed.

(** X6: rankLabel gives different labels to different valid ranks (the joker rank 0 and the ranks 3..13), so a label identifies the rank. *)
Theorem rankLabel_injective (r1 r2 : Z) :
  In r1 valid_ranks -> In r2 valid_ranks -> rankLabel r1 = rankLabel r2 -> r1 = r2.
Proof.
  unfold valid_ranks, FiveCrownsCompat.ranks. simpl.
  intros H1 H2. repeat (destruct H1 as [<-|H1]); try contradiction;
    repeat (destruct H2 as [<-|H2]); try contradiction;
    try reflexivity; vm_compute; discriminate.
Qed.

Lemma fold_left_add_acc (l : list Z) (a : Z) : fold_left Z.add l a = a + fold_right Z.add 0 l.
Proof. revert a; induction l as [|x l IH]; intros a; simpl; [lia|]. rewrite IH. lia. Qed.

(** X7: Adding round scores one by one to createGameScore(id) with addRoundScore keeps the player id, records the round scores in order, and gives their sum as the total. *)
Theorem addRoundScore_fold (playerId : string) (points : list Z) :
  fold_left addRoundScore points (createGameScore playerId) =
  mkGameScore playerId points (fold_right Z.add 0 points).
Proof.
  induction points as [|p ps IH] using rev_ind; [reflexivity|].
  rewrite fold_left_app, IH. simpl. unfold addRoundScore. simpl.
  rewrite fold_left_add_acc. f_equal; lia.
Qed.

Lemma js_min_fold (xs : list Z) (a : Z) :
  exists m, fold_left (fun acc x => Some (match acc with None => x | Some m => Z.min m x end)) xs (Some a) = Some m /\
    (m = a \/ In m xs) /\ m <= a /\ Forall (fun x => m <= x) xs.
Proof.
  revert a; induction xs as [|x xs IH]; intros a; simpl.
  - exists a. repeat split; auto; lia.
  - destruct (IH (Z.min a x)) as (m & E & Hin & Hle & F).
    exists m. split; [exact E|]. split.
    + destruct Hin as [->|Hin]; [|auto]. destruct (Z.min_spec a x) as [[_ ->]|[_ ->]]; auto.
    + split; [lia|]. constructor; [lia|exact F].
Qed.

Lemma js_min_spec (xs : list Z) :
  xs <> [] -> exists m, js_min xs = Some m /\ In m xs /\ Forall (fun x => m <= x) xs.
Proof.
  destruct xs as [|x xs]; [congruence|]. intros _. unfold js_min. simpl.
  destruct (js_min_fold xs x) as (m & E & Hin & Hle & F).
  exists m. split; [exact E|]. split.
  - destruct Hin as [->|Hin]; simpl; auto.
  - constructor; [lia|exact F].
Qed.

Lemma determineGameWinners_filter (gs : list GameScore) :
  determineGameWinners gs =
  map gs_playerId (List.filter (fun s => forallb (fun t => totalScore s <=? totalScore t) gs) gs).
Proof.
  destruct gs as [|g0 gs0]; [reflexivity|].
  assert (Hne : map totalScore (g0 :: gs0) <> []) by discriminate.
  destruct (js_min_spec _ Hne) as (m & E & Hin & F).
  unfold determineGameWinners. rewrite E. f_equal.
  set (gs := g0 :: gs0) in *.
  apply filter_ext_in. intros s Hs.
  apply in_map_iff in Hin as (w & Hw & Hwin).
  rewrite List.Forall_forall in F.
  destruct (totalScore s =? m) eqn:Es; symmetry.
  - apply forallb_forall. intros t Ht. apply Z.leb_le. apply Z.eqb_eq in Es. rewrite Es.
    apply F, in_map, Ht.
  - apply not_true_is_false. intros H. rewrite forallb_forall in H.
    apply Z.eqb_neq in Es. specialize (H w Hwin). apply Z.leb_le in H.
    specialize (F (totalScore s) (in_map _ _ _ Hs)). lia.
Qed.

(** X8: determineGameWinners returns, in input order, the ids of the game scores whose total is at most every other total. The result is empty exactly when there are no game scores. *)
Theorem determineGameWinners_spec (gs : list GameScore) :
  determineGameWinners gs =
    map gs_playerId (List.filter (fun s => forallb (fun t => totalScore s <=? totalScore t) gs) gs) /\
  (gs = [] <-> determineGameWinners gs = []).
Proof.
  rewrite determineGameWinners_filter. split; [reflexivity|].
  split; [intros ->; reflexivity|].
  destruct gs as [|g0 gs0]; [reflexivity|]. intros Hnil. exfalso.
  set (gs := g0 :: gs0) in *.
  assert (Hne : map totalScore gs <> []) by discriminate.
  destruct (js_min_spec _ Hne) as (m & _ & Hin & F).
  apply in_map_iff in Hin as (w & <- & Hw).
  apply map_eq_nil in Hnil.
  assert (In w (List.filter (fun s => forallb (fun t => totalScore s <=? totalScore t) gs) gs)).
  { apply filter_In. split; [exact Hw|]. apply forallb_forall. intros t Ht. apply Z.leb_le.
    rewrite List.Forall_forall in F. apply F, in_map, Ht. }
  rewrite Hnil in H. contradiction.
Qed.

Section InsertionSort.
Context {A : Type} (cmp : A -> A -> Z) (R : A -> A -> Prop).
Hypothesis cmp_R : forall a b, cmp a b <= 0 <-> R a b.
Hypothesis R_total : forall a b, R a b \/ R b a.

Lemma insert_by_HdRel (z x : A) (l : list A) :
  R z x -> HdRel R z l -> HdRel R z (insert_by cmp x l).
Proof.
  intros Hzx Hl. destruct l as [|y l]; simpl; [constructor; exact Hzx|].
  destruct (cmp y x <=? 0); constructor; [inversion Hl; assumption|exact Hzx].
Qed.

Lemma insert_by_sorted (x : A) (l : list A) : Sorted R l -> Sorted R (insert_by cmp x l).
Proof.
  induction l as [|y l IH]; intros Hs; simpl; [repeat constructor|].
  destruct (cmp y x <=? 0) eqn:E.
  - apply Z.leb_le, cmp_R in E. inversion Hs; subst.
    constructor; [apply IH; assumption|]. apply insert_by_HdRel; assumption.
  - apply Z.leb_gt in E. constructor; [exact Hs|]. constructor.
    destruct (R_total x y) as [H|H]; [exact H|]. apply cmp_R in H. lia.
Qed.

Lemma stable_sort_sorted (l : list A) : Sorted R (stable_sort cmp l).
Proof.
  unfold stable_sort. assert (H : Sorted R []) by constructor. revert H.
  generalize (@nil A). induction l as [|x l IH]; intros acc Hacc; simpl; [exact Hacc|].
  apply IH, insert_by_sorted, Hacc.
Qed.
End InsertionSort.

(** X9: getRankings returns a permutation of the game scores, ordered by total score ascending. The first player of the ranking is always among the winners returned by determineGameWinners. *)
Theorem getRankings_spec (gs : list GameScore) :
  getRankings gs ≡ₚ gs /\
  Sorted (fun a b => totalScore a <= totalScore b) (getRankings gs) /\
  (forall g rest, getRankings gs = g :: rest -> In (gs_playerId g) (determineGameWinners gs)).
Proof.
  assert (Hs : Sorted (fun a b => totalScore a <= totalScore b) (getRankings gs)).
  { apply stable_sort_sorted; [intros; lia|intros; lia]. }
  assert (Hp : getRankings gs ≡ₚ gs) by apply stable_sort_perm.
  split; [exact Hp|]. split; [exact Hs|].
  intros g rest E. rewrite determineGameWinners_filter. apply in_map.
  rewrite E in Hs, Hp.
  apply Sorted_StronglySorted in Hs; [|intros x y z; lia].
  apply StronglySorted_inv in Hs as [_ Hall].
  apply filter_In. split.
  - apply (Permutation_in _ Hp). left. reflexivity.
  - apply forallb_forall. intros t Ht. apply Z.leb_le.
    apply (Permutation_in _ (Permutation_sym Hp)) in Ht. destruct Ht as [<-|Ht]; [lia|].
    rewrite List.Forall_forall in Hall. apply Hall, Ht.
Qed.

(** X10: sortByRankThenSuit and sortBySuitThenRank return a permutation of the hand. The first orders by rank, then by suit order. The second orders by suit order, then by rank. *)
Theorem hand_sorts_ordered (hand : list Card) :
  sortByRankThenSuit hand ≡ₚ hand /\
  Sorted (fun a b => rank a < rank b \/
            (rank a = rank b /\ suitOrderIndex (suit a) <= suitOrderIndex (suit b)))
         (sortByRankThenSuit hand) /\
  sortBySuitThenRank hand ≡ₚ hand /\
  Sorted (fun a b => suitOrderIndex (suit a) < suitOrderIndex (suit b) \/
            (suitOrderIndex (suit a) = suitOrderIndex (suit b) /\ rank a <= rank b))
         (sortBySuitThenRank hand).
Proof.
  split; [apply stable_sort_perm|]. split.
  { apply stable_sort_sorted.
    - intros a b. destruct (rank a =? rank b) eqn:E; simpl; lia.
    - intros a b. lia. }
  split; [apply stable_sort_perm|].
  apply stable_sort_sorted.
  - intros a b. simpl. destruct (suitOrderIndex (suit a) =? suitOrderIndex (suit b)) eqn:E; simpl; lia.
  - intros a b. lia.
Qed.

Lemma sorted_last_max (l : list Z) (x : Z) :
  StronglySorted Z.le l -> In x l -> x <= default 0 (last l).
Proof.
  revert x. induction l as [|y l IH]; intros x Hs Hin; [destruct Hin|].
  apply StronglySorted_inv in Hs as [Hs Hall]. rewrite List.Forall_forall in Hall.
  destruct l as [|z l'].
  - destruct Hin as [<-|[]]. simpl. lia.
  - rewrite last_cons_cons. destruct Hin as [<-|Hin].
    + transitivity z; [apply Hall; left; reflexivity|]. apply IH; [exact Hs|left; reflexivity].
    + apply IH; assumption.
Qed.

Lemma sorted_last_in (l : list Z) : l <> [] -> In (default 0 (last l)) l.
Proof.
  induction l as [|y l IH]; intros H; [congruence|].
  destruct l as [|z l']; [left; reflexivity|].
  rewrite last_cons_cons. right. apply IH. discriminate.
Qed.

(** X11: getRunEdges returns null exactly when every card is wild. Otherwise its suit is the suit of the first non-wild card, and min and max are the smallest and largest ranks among the non-wild cards, both attained by a non-wild card. *)
Theorem getRunEdges_spec (cards : list Card) (rule : RoundRule) :
  (getRunEdges cards rule = None <-> Forall (fun c => isWildRank (rank c) rule = true) cards) /\
  (forall e, getRunEdges cards rule = Some e ->
     (exists c0 rest, nonWildOf cards rule = c0 :: rest /\ edge_suit e = suit c0) /\
     (exists c, In c (nonWildOf cards rule) /\ rank c = edge_min e) /\
     (exists c, In c (nonWildOf cards rule) /\ rank c = edge_max e) /\
     Forall (fun c => edge_min e <= rank c <= edge_max e) (nonWildOf cards rule)).
Proof.
  unfold getRunEdges. fold (nonWildOf cards rule). split.
  - split.
    + destruct (nonWildOf cards rule) eqn:E; [|discriminate]. intros _.
      apply List.Forall_forall. intros c Hc.
      destruct (isWildRank (rank c) rule) eqn:Ew; [reflexivity|].
      assert (In c (nonWildOf cards rule)) by (apply filter_In; rewrite Ew; auto).
      rewrite E in H. destruct H.
    + intros Hall. rewrite List.Forall_forall in Hall.
      destruct (nonWildOf cards rule) as [|c l] eqn:E; [reflexivity|].
      assert (Hc : In c (nonWildOf cards rule)) by (rewrite E; left; reflexivity).
      apply filter_In in Hc as [Hc Hw]. rewrite Hall in Hw by exact Hc. discriminate.
  - destruct (nonWildOf cards rule) as [|c0 rest] eqn:E; [discriminate|].
    intros e He. injection He as <-.
    set (ranks := insert_num (rank c0) (sort_num (map rank rest))).
    change ranks with (sort_num (map rank (c0 :: rest))) in (value of ranks). cbn [edge_min edge_max edge_suit].
    assert (Hp : ranks ≡ₚ rank c0 :: map rank rest) by exact (sort_num_perm (map rank (c0 :: rest))).
    assert (Hs : StronglySorted Z.le ranks).
    { apply Sorted_StronglySorted; [intros ???; lia|]. exact (sort_num_sorted (map rank (c0 :: rest))). }
    clearbody ranks.
    assert (Hne : ranks <> []).
    { intros Hn. rewrite Hn in Hp. apply Permutation_nil in Hp. discriminate. }
    assert (Hin : forall x, In x ranks <-> exists c, In c (c0 :: rest) /\ rank c = x).
    { intros x. rewrite (Permutation_in' eq_refl Hp).
      change (rank c0 :: map rank rest) with (map rank (c0 :: rest)).
      rewrite in_map_iff. firstorder. }
    destruct ranks as [|r0 rs] eqn:Er; [congruence|].
    split; [eauto|]. split; [|split].
    + apply Hin. left. reflexivity.
    + apply Hin. rewrite <- Er. apply sorted_last_in. congruence.
    + apply List.Forall_forall. intros c Hc.
      assert (Hr : In (rank c) (r0 :: rs)) by (apply Hin; eauto).
      split.
      * simpl. destruct Hr as [<-|Hr]; [lia|].
        apply StronglySorted_inv in Hs as [_ Hall]. rewrite List.Forall_forall in Hall. apply Hall, Hr.
      * apply sorted_last_max; assumption.
Qed.

Lemma insert_by_score_cons (p : PlayerState) (l : list PlayerState) :
  exists h t, insert_by_score p l = h :: t.
Proof. destruct l as [|q l]; simpl; [eauto|]. destruct (score q <=? score p); eauto. Qed.

Lemma winner_fold_head (ps : list PlayerState) :
  ps <> [] ->
  exists i h t, fold_left (fun acc p => insert_by_score p acc) ps [] = h :: t /\
    ps !! i = Some h /\ Forall (fun q => score h <= score q) ps /\
    (forall j q, (j < i)%nat -> ps !! j = Some q -> score h < score q).
Proof.
  induction ps as [|x ps IH] using rev_ind; [congruence|]. intros _.
  rewrite fold_left_app. simpl.
  destruct ps as [|y ps'] eqn:Eps.
  { exists 0%nat, x, []. simpl. split; [reflexivity|]. split; [reflexivity|].
    split; [repeat constructor; lia|]. intros j q Hj. lia. }
  rewrite <- Eps in *. destruct IH as (i & h & t & E & Hi & Hall & Hfirst); [subst; discriminate|].
  rewrite E. simpl. destruct (score h <=? score x) eqn:Ehx.
  - apply Z.leb_le in Ehx. exists i, h, (insert_by_score x t). split; [reflexivity|].
    split; [apply lookup_app_l_Some, Hi|]. split.
    + apply Forall_app. split; [exact Hall|]. constructor; [exact Ehx|constructor].
    + intros j q Hj Hq. apply (Hfirst j q Hj). rewrite lookup_app_l in Hq; [exact Hq|].
      apply lookup_lt_Some in Hi. lia.
  - apply Z.leb_gt in Ehx. exists (length ps), x, (h :: t). split; [reflexivity|].
    split; [rewrite lookup_app_r, Nat.sub_diag by lia; reflexivity|]. split.
    + apply Forall_app. split; [|constructor; [lia|constructor]].
      eapply Forall_impl; [exact Hall|]. simpl. intros q Hq. lia.
    + intros j q Hj Hq. rewrite lookup_app_l in Hq by exact Hj.
      rewrite List.Forall_forall in Hall. pose proof (Hall q (proj1 (list_elem_of_In _ _) (list_elem_of_lookup_2 _ _ _ Hq))). lia.
Qed.

(** X12: computeWinnerName returns "Unknown" for no players. Otherwise it returns the name of the first player with the lowest score: every player's score is at least that score, and every earlier player's score is strictly greater. *)
Theorem computeWinnerName_first_lowest (ps : list PlayerState) :
  (ps = [] -> computeWinnerName ps = "Unknown"%string) /\
  (ps <> [] -> exists i p, ps !! i = Some p /\ computeWinnerName ps = name p /\
     Forall (fun q => score p <= score q) ps /\
     (forall j q, (j < i)%nat -> ps !! j = Some q -> score p < score q)).
Proof.
  split; [intros ->; reflexivity|]. intros Hne.
  destruct (winner_fold_head ps Hne) as (i & h & t & E & Hi & Hall & Hfirst).
  exists i, h. unfold computeWinnerName. rewrite E. auto.
Qed.

Lemma consume_step (s : GameState) (a : string) (m : nat) :
  outTriggeredByPlayerId s = Some a -> a <> EmptyString ->
  consumeOutTurnIfNeeded (set_turnsRemainingAfterOut (Some (Z.of_nat (S (S m)))) s) =
  set_turnsRemainingAfterOut (Some (Z.of_nat (S m))) s.
Proof.
  intros Ho Ha. unfold consumeOutTurnIfNeeded.
  cbn [outTriggeredByPlayerId turnsRemainingAfterOut set_turnsRemainingAfterOut]. rewrite Ho.
  unfold truthy. destruct (String.eqb a EmptyString) eqn:E; [apply String.eqb_eq in E; congruence|].
  cbn [negb]. destruct (_ <=? 0) eqn:Em; [apply Z.leb_le in Em; lia|].
  unfold set_turnsRemainingAfterOut. cbn. do 2 f_equal. lia.
Qed.

(** X13: When no out is pending and a non-empty player id goes out in a game of k + 2 players, triggerOutIfNeeded records that player and leaves k + 1 final turns. Each of the first k calls of consumeOutTurnIfNeeded only lowers the count by one. The (k + 1)-th call ends the round with endRound, which clears the out and leaves the PLAYING status. *)
Theorem trigger_then_final_turns (s : GameState) (pid : string) (k : nat) :
  truthy (outTriggeredByPlayerId s) = false -> pid <> EmptyString ->
  length (players s) = S (S k) ->
  let t := triggerOutIfNeeded s pid in
  outTriggeredByPlayerId t = Some pid /\
  (forall j, (j <= k)%nat ->
     Nat.iter j consumeOutTurnIfNeeded t =
     set_turnsRemainingAfterOut (Some (Z.of_nat (S k - j))) t) /\
  Nat.iter (S k) consumeOutTurnIfNeeded t =
    endRound (set_message (Some ("Final turns completed. Scoring round " +:+ pretty (round s) +:+ "..."))
                (set_turnsRemainingAfterOut (Some 1) t)) /\
  status (Nat.iter (S k) consumeOutTurnIfNeeded t) <> PLAYING /\
  outTriggeredByPlayerId (Nat.iter (S k) consumeOutTurnIfNeeded t) = None.
Proof.
  intros Ho Hp Hn t.
  assert (Ht : outTriggeredByPlayerId t = Some pid) by (unfold t, triggerOutIfNeeded; rewrite Ho; reflexivity).
  assert (Hturn : t = set_turnsRemainingAfterOut (Some (Z.of_nat (S k))) t).
  { unfold t, triggerOutIfNeeded. rewrite Ho, Hn. unfold set_turnsRemainingAfterOut, set_message; simpl.
    do 3 f_equal. lia. }
  assert (Hiter : forall j, (j <= k)%nat ->
     Nat.iter j consumeOutTurnIfNeeded t = set_turnsRemainingAfterOut (Some (Z.of_nat (S k - j))) t).
  { induction j as [|j IH]; intros Hj.
    - rewrite Nat.sub_0_r. exact Hturn.
    - simpl. rewrite IH by lia. replace (S k - j)%nat with (S (S (k - S j))) by lia.
      rewrite (consume_step _ pid) by assumption. f_equal. f_equal. f_equal. lia. }
  assert (Hlast : Nat.iter (S k) consumeOutTurnIfNeeded t =
    endRound (set_message (Some ("Final turns completed. Scoring round " +:+ pretty (round s) +:+ "..."))
                (set_turnsRemainingAfterOut (Some 1) t))).
  { simpl. rewrite Hiter by lia. replace (S k - k)%nat with 1%nat by lia.
    unfold consumeOutTurnIfNeeded.
    cbn [outTriggeredByPlayerId turnsRemainingAfterOut set_turnsRemainingAfterOut]. rewrite Ht.
    unfold truthy. destruct (String.eqb pid EmptyString) eqn:E; [apply String.eqb_eq in E; congruence|].
    cbn [negb Z.of_nat Z.sub Z.leb]. unfold t, triggerOutIfNeeded. rewrite Ho. reflexivity. }
  split; [exact Ht|]. split; [exact Hiter|]. split; [exact Hlast|].
  rewrite Hlast. unfold endRound. simpl. split; [|reflexivity].
  destruct (_ <=? _); discriminate.
Qed.

(** X14: onToggleSelect never fails. When the player cannot act it changes nothing. Otherwise it changes only the selection: the card's id is removed if selected and appended if not, and a selection without duplicates stays without duplicates. Selecting an unselected card and toggling it again restores the state. *)
Theorem toggle_select (cardId : string) (s : GameState) :
  exists s', onToggleSelect cardId s = Some s' /\
    (canAct s = false -> s' = s) /\
    (canAct s = true ->
       s' = set_selectedCardIds (selectedCardIds s') s /\
       (forall id, In id (selectedCardIds s') <->
          (In id (selectedCardIds s) /\ id <> cardId) \/ (id = cardId /\ ~ In cardId (selectedCardIds s))) /\
       (NoDup (selectedCardIds s) -> NoDup (selectedCardIds s'))) /\
    (~ In cardId (selectedCardIds s) -> onToggleSelect cardId s' = Some s).
Proof.
  unfold onToggleSelect. destruct (canAct s) eqn:Hc; simpl.
  2:{ eexists. split; [reflexivity|]. split; [reflexivity|]. split; [discriminate|].
      intros _. rewrite Hc. reflexivity. }
  destruct (existsb (String.eqb cardId) (selectedCardIds s)) eqn:Hhas.
  - apply existsb_exists in Hhas as (x & Hx & Ex). apply String.eqb_eq in Ex. subst x.
    eexists. split; [reflexivity|]. split; [discriminate|]. split; [|intros Hn; contradiction].
    intros _. split; [reflexivity|]. split.
    + intros id. simpl. rewrite filter_In, negb_true_iff, String.eqb_neq. tauto.
    + intros Hnd. simpl. apply NoDup_ListNoDup, List.NoDup_filter, NoDup_ListNoDup, Hnd.
  - assert (Hnin : ~ In cardId (selectedCardIds s)).
    { intros Hin. assert (existsb (String.eqb cardId) (selectedCardIds s) = true); [|congruence].
      apply existsb_exists. exists cardId. split; [exact Hin|apply String.eqb_refl]. }
    eexists. split; [reflexivity|]. split; [discriminate|]. split.
    + intros _. split; [reflexivity|]. split.
      * intros id. simpl. rewrite in_app_iff. simpl.
        destruct (String.eq_dec id cardId) as [->|Hne]; [tauto|]. intuition congruence.
      * intros Hnd. simpl. apply NoDup_app. split; [exact Hnd|]. split.
        -- intros x Hx Hx'. apply list_elem_of_singleton in Hx'. subst x.
           apply Hnin, list_elem_of_In, Hx.
        -- apply NoDup_singleton.
    + intros _. simpl. unfold canAct in *. simpl. rewrite Hc. simpl.
      rewrite existsb_app. simpl. rewrite String.eqb_refl, orb_true_r.
      f_equal. rewrite List.filter_app. simpl. rewrite String.eqb_refl. simpl.
      rewrite app_nil_r.
      rewrite (filter_ext_in _ (fun _ => true)).
      * rewrite forallb_filter_id; [destruct s; reflexivity|]. apply forallb_forall. reflexivity.
      * intros x Hx. apply negb_true_iff, String.eqb_neq. intros ->. contradiction.
Qed.

Lemma rankLabel_injective_witness :
  In 11 valid_ranks /\ In 11 valid_ranks /\ rankLabel 11 = rankLabel 11 /\ 11 = 11.
Proof.
  assert (H : In 11 valid_ranks) by (vm_compute; tauto).
  split; [exact H|]. split; [exact H|]. split; [reflexivity|].
  exact (rankLabel_injective 11 11 H H eq_refl).
Defined.

Lemma trigger_then_final_turns_witness :
  truthy (outTriggeredByPlayerId game0) = false /\ "P1" <> EmptyString /\
  length (players game0) = S (S 0) /\
  outTriggeredByPlayerId (triggerOutIfNeeded game0 "P1") = Some "P1".
Proof.
  assert (H1 : truthy (outTriggeredByPlayerId game0) = false) by (vm_compute; reflexivity).
  assert (H2 : "P1" <> EmptyString) by discriminate.
  assert (H3 : length (players game0) = S (S 0)) by (vm_compute; reflexivity).
  split; [exact H1|]. split; [exact H2|]. split; [exact H3|].
  exact (proj1 (trigger_then_final_turns game0 "P1" 0 H1 H2 H3)).
Defined.

(* ------------------------------------------------------------------ *)
(** ** Further properties: conservation of cards and selections *)

Lemma filter_perm {A} (f : A -> bool) (l1 l2 : list A) :
  l1 ≡ₚ l2 -> List.filter f l1 ≡ₚ List.filter f l2.
Proof.
  induction 1 as [|x l1 l2 _ IH|x y l|l1 l2 l3 _ IH1 _ IH2]; simpl.
  - constructor.
  - destruct (f x); [constructor|]; exact IH.
  - destruct (f x), (f y); simpl; try apply perm_swap; reflexivity.
  - etrans; eauto.
Qed.

Lemma filter_none {A} (f : A -> bool) (l : list A) :
  (forall x, In x l -> f x = false) -> List.filter f l = [].
Proof.
  induction l as [|x l IH]; intros H; simpl; [reflexivity|].
  rewrite (H x (or_introl eq_refl)). apply IH. intros y Hy. apply H. right. exact Hy.
Qed.

Lemma filter_all {A} (f : A -> bool) (l : list A) :
  (forall x, In x l -> f x = true) -> List.filter f l = l.
Proof.
  induction l as [|x l IH]; intros H; simpl; [reflexivity|].
  rewrite (H x (or_introl eq_refl)). f_equal. apply IH. intros y Hy. apply H. right. exact Hy.
Qed.

Lemma hand_map_get_in (h : list Card) (id : string) (c : Card) :
  hand_map_get h id = Some c -> In c h /\ card_id c = id.
Proof.
  unfold hand_map_get. intros H. apply find_some in H as [Hin Heq].
  apply String.eqb_eq in Heq. split; [apply in_rev; exact Hin|exact Heq].
Qed.

Lemma selected_from_hand_ids (h : list Card) (ids : list string) :
  map card_id (selected_from_hand h ids) `sublist_of` ids /\
  (forall c, In c (selected_from_hand h ids) -> In c h).
Proof.
  unfold selected_from_hand. induction ids as [|id ids IH]; simpl.
  - split; [constructor|intros ? []].
  - destruct IH as [IH1 IH2]. destruct (hand_map_get h id) as [c|] eqn:E; simpl.
    + destruct (hand_map_get_in _ _ _ E) as [Hin Hid]. split.
      * rewrite Hid. apply sublist_skip, IH1.
      * intros c' [<-|Hc']; auto.
    + split; [apply sublist_cons, IH1|exact IH2].
Qed.

(** With distinct card ids in the hand and distinct selected ids, the hand is
    the cards kept plus the cards selected. *)
Lemma remove_selected_perm (h : list Card) (ids : list string) :
  NoDup (map card_id h) -> NoDup ids ->
  h ≡ₚ remove_cards h (selected_from_hand h ids) ++ selected_from_hand h ids.
Proof.
  intros Hh Hids. destruct (selected_from_hand_ids h ids) as [Hsub Hin].
  set (cs := selected_from_hand h ids) in *.
  assert (Hcs : NoDup (map card_id cs)) by (eapply sublist_NoDup; eauto).
  assert (Hcs' : NoDup cs).
  { apply NoDup_ListNoDup. apply (NoDup_map_inv card_id). apply NoDup_ListNoDup, Hcs. }
  assert (Hsm : cs ⊆+ h).
  { apply NoDup_submseteq; [exact Hcs'|]. intros x Hx.
    apply list_elem_of_In, Hin, list_elem_of_In, Hx. }
  destruct (submseteq_Permutation _ _ Hsm) as [k Hk].
  assert (Hnd : NoDup (map card_id (cs ++ k))).
  { rewrite <- (Permutation_map card_id Hk). exact Hh. }
  rewrite map_app in Hnd. apply NoDup_app in Hnd as (_ & Hdisj & _).
  unfold remove_cards. rewrite (filter_perm _ _ _ Hk), List.filter_app.
  rewrite filter_none, filter_all; simpl.
  - rewrite Hk. apply Permutation_app_comm.
  - intros x Hx. apply negb_true_iff, not_true_iff_false. intros Hex.
    apply existsb_exists in Hex as (y & Hy & Heq). apply String.eqb_eq in Heq. subst y.
    apply (Hdisj (card_id x)); apply list_elem_of_In; [exact Hy|]. apply in_map, Hx.
  - intros x Hx. apply negb_false_iff, existsb_exists. exists (card_id x).
    split; [apply in_map, Hx|apply String.eqb_refl].
Qed.

Lemma discard_perm (h : list Card) (cid : string) (card : Card) :
  NoDup (map card_id h) ->
  find (fun c => String.eqb (card_id c) cid) h = Some card ->
  h ≡ₚ List.filter (fun c => negb (String.eqb (card_id c) cid)) h ++ [card].
Proof.
  intros Hn Hf. apply find_some in Hf as [Hin Heq]. apply String.eqb_eq in Heq. subst cid.
  apply in_split in Hin as (l1 & l2 & ->).
  rewrite map_app in Hn. simpl in Hn. apply NoDup_app in Hn as (_ & Hdisj & Hn2).
  apply NoDup_cons in Hn2 as [Hn2 _].
  rewrite List.filter_app. simpl. rewrite String.eqb_refl. simpl.
  rewrite !filter_all.
  - solve_Permutation.
  - intros x Hx. apply negb_true_iff, String.eqb_neq. intros E. apply Hn2.
    apply list_elem_of_In. rewrite <- E. apply in_map, Hx.
  - intros x Hx. apply negb_true_iff, String.eqb_neq. intros E.
    apply (Hdisj (card_id x)); [apply list_elem_of_In, in_map, Hx|]. rewrite E.
    apply list_elem_of_here.
Qed.

Lemma map_at_hands_perm_app (f : PlayerState -> PlayerState) (x : list Card) (i : nat)
    (ps : list PlayerState) (p : PlayerState) :
  ps !! i = Some p -> hand p ≡ₚ hand (f p) ++ x ->
  concat (map hand (map_at f i ps)) ++ x ≡ₚ concat (map hand ps).
Proof.
  revert i; induction ps as [|q ps IH]; intros [|i] Hp Hf; simpl in *; try discriminate.
  - injection Hp as ->. rewrite Hf. solve_Permutation.
  - rewrite <- (assoc_L (++)). apply Permutation_app_head. eapply IH; eauto.
Qed.

Lemma layoff_melds_perm (ms : list Meld) (meldId : string) (addedCards : list Card) :
  NoDup (map meld_id ms) -> In meldId (map meld_id ms) ->
  concat (map meld_cards (map (fun m => if String.eqb (meld_id m) meldId
                                        then mkMeld (meld_id m) (meld_playerId m) (meld_type m)
                                               (meld_cards m ++ addedCards) (meld_round m)
                                        else m) ms)) ≡ₚ
  concat (map meld_cards ms) ++ addedCards.
Proof.
  induction ms as [|m ms IH]; simpl; intros Hnd Hin; [destruct Hin|].
  apply NoDup_cons in Hnd as [Hnotin Hnd].
  destruct (String.eqb (meld_id m) meldId) eqn:E.
  - apply String.eqb_eq in E. simpl.
    rewrite (map_ext_in _ (fun m => m)), map_id; [solve_Permutation|].
    intros a Ha. destruct (String.eqb (meld_id a) meldId) eqn:Ea; [|reflexivity].
    exfalso. apply String.eqb_eq in Ea. apply Hnotin, list_elem_of_In.
    rewrite E, <- Ea. apply in_map, Ha.
  - destruct Hin as [Heq|Hin]; [apply String.eqb_neq in E; congruence|].
    rewrite IH by assumption. solve_Permutation.
Qed.

Lemma layoff_meld_ids (ms : list Meld) (meldId : string) (addedCards : list Card) :
  map meld_id (map (fun m => if String.eqb (meld_id m) meldId
                             then mkMeld (meld_id m) (meld_playerId m) (meld_type m)
                                    (meld_cards m ++ addedCards) (meld_round m)
                             else m) ms) = map meld_id ms.
Proof. rewrite map_map. apply map_ext. intros m. destruct (String.eqb _ _); reflexivity. Qed.

Lemma afterDiscard_melds_selected (st : GameState) (pid : string) (n : nat) :
  melds (afterDiscard st pid n) = melds st /\
  (selectedCardIds (afterDiscard st pid n) = selectedCardIds st \/
   selectedCardIds (afterDiscard st pid n) = []).
Proof.
  unfold afterDiscard, triggerOutIfNeeded, consumeOutTurnIfNeeded, endRound, advancePlayer.
  repeat (case_match; simpl); auto.
Qed.

Lemma toggle_nodup (cardId : string) (s s' : GameState) :
  onToggleSelect cardId s = Some s' -> NoDup (selectedCardIds s) -> NoDup (selectedCardIds s').
Proof.
  unfold onToggleSelect. intros H Hnd. destruct (negb (canAct s)); injection H as <-; [exact Hnd|].
  simpl. destruct (existsb (String.eqb cardId) (selectedCardIds s)) eqn:Hhas.
  - apply NoDup_ListNoDup, List.NoDup_filter, NoDup_ListNoDup, Hnd.
  - apply NoDup_app. split; [exact Hnd|]. split; [|apply NoDup_singleton].
    intros x Hx Hx'. apply list_elem_of_singleton in Hx'. subst x.
    assert (existsb (String.eqb cardId) (selectedCardIds s) = true); [|congruence].
    apply existsb_exists. exists cardId. split; [apply list_elem_of_In, Hx|apply String.eqb_refl].
Qed.

Lemma act_selected_nodup (a : Action) (s s' : GameState) :
  act a s = Some s' -> NoDup (selectedCardIds s) -> NoDup (selectedCardIds s').
Proof.
  intros H Hnd. destruct a; simpl in H.
  1: eapply toggle_nodup; eauto.
  all: try unfold onClearSelection in H; try unfold onSortRank in H;
       try unfold onSortSuit in H; try unfold onDrawFromDeck in H; try unfold onDrawFromDiscard in H;
       try unfold onSubmitMeld in H; try unfold onLayoffToMeld in H;
       try unfold onDiscardSelected in H; try unfold onNextRound, nextRound in H.
  all: handler_cases; try assumption; try constructor.
  all: try match goal with |- NoDup (selectedCardIds (afterDiscard ?b ?p ?n)) =>
         destruct (afterDiscard_melds_selected b p n) as [_ [-> | ->]]; simpl; constructor end.
  all: match goal with E : selectedCardIds _ = _ |- _ => rewrite E; assumption end.
Qed.

Lemma newGame_fresh (o : NewGameOptions) (ambient : nat -> nat) (s : GameState) :
  newGame o ambient = Some s -> melds s = [] /\ selectedCardIds s = [].
Proof. unfold newGame. intros H. handler_cases; split; reflexivity. Qed.

Lemma reachable_selected_nodup (s : GameState) : reachable s -> NoDup (selectedCardIds s).
Proof.
  induction 1 as [o amb s _ Hnew | s s' _ IH (a & _ & Hact)].
  - destruct (newGame_fresh _ _ _ Hnew) as [_ ->]. constructor.
  - eapply act_selected_nodup; eauto.
Qed.

Lemma draw_recycle_perm (s : GameState) (amb : nat -> nat) :
  let rd := if Nat.eqb (length (drawPile s)) 0
            then recycleDiscardIntoDraw (drawPile s) (discardPile s) (Ambient amb)
            else (drawPile s, discardPile s) in
  fst rd ++ snd rd ≡ₚ drawPile s ++ discardPile s.
Proof.
  simpl. destruct (Nat.eqb (length (drawPile s)) 0) eqn:E0; [|reflexivity].
  unfold recycleDiscardIntoDraw. rewrite E0. cbn [negb].
  destruct (Nat.leb _ 1); [reflexivity|].
  destruct (last (discardPile s)) as [top|] eqn:Hl; [|reflexivity]. simpl.
  rewrite shuffle_perm. apply Nat.eqb_eq, nil_length_inv in E0. rewrite E0. simpl.
  apply last_Some in Hl as [l' Hl']. rewrite Hl', removelast_last. reflexivity.
Qed.

Lemma act_conserves (a : Action) (s s' : GameState) :
  reachable s -> act a s = Some s' ->
  ((exists extra, map meld_id (melds s') = map meld_id (melds s) ++ extra) /\
   (NoDup (map meld_id (melds s)) -> cards_in_play s ≡ₚ defaultDeck ->
    cards_in_play s' ≡ₚ defaultDeck)) \/
  cards_in_play s' ≡ₚ defaultDeck.
Proof.
  intros Hr. unfold cards_in_play, table_cards.
  assert (Hsame : forall t, melds t = melds s -> map hand (players t) = map hand (players s) ->
            drawPile t = drawPile s -> discardPile t = discardPile s ->
            (exists extra, map meld_id (melds t) = map meld_id (melds s) ++ extra) /\
            (NoDup (map meld_id (melds s)) ->
             (concat (map hand (players s)) ++ drawPile s ++ discardPile s) ++ concat (map meld_cards (melds s)) ≡ₚ defaultDeck ->
             (concat (map hand (players t)) ++ drawPile t ++ discardPile t) ++ concat (map meld_cards (melds t)) ≡ₚ defaultDeck)).
  { intros t H1 H2 H3 H4. rewrite H1, H2, H3, H4. split; [exists []; rewrite app_nil_r; reflexivity|auto]. }
  destruct a as [cid| | | |amb| |now|mid| |amb]; simpl.
  - unfold onToggleSelect. intros H. left.
    destruct (negb (canAct s)); injection H as <-; apply Hsame; reflexivity.
  - unfold onClearSelection. intros H. injection H as <-. left. apply Hsame; reflexivity.
  - unfold onSortRank. intros H. left. destruct (negb (canAct s)); injection H as <-; [apply Hsame; reflexivity|].
    simpl. split; [exists []; rewrite app_nil_r; reflexivity|]. intros _ Hc. rewrite <- Hc.
    rewrite map_at_hands_perm; [reflexivity|]. intros p _. simpl. apply stable_sort_perm.
  - unfold onSortSuit. intros H. left. destruct (negb (canAct s)); injection H as <-; [apply Hsame; reflexivity|].
    simpl. split; [exists []; rewrite app_nil_r; reflexivity|]. intros _ Hc. rewrite <- Hc.
    rewrite map_at_hands_perm; [reflexivity|]. intros p _. simpl. apply stable_sort_perm.
  - unfold onDrawFromDeck. intros H. left. destruct (negb (canDraw s)); [injection H as <-; apply Hsame; reflexivity|].
    pose proof (draw_recycle_perm s amb) as Hrd. simpl in Hrd.
    destruct (if Nat.eqb (length (drawPile s)) 0
              then recycleDiscardIntoDraw (drawPile s) (discardPile s) (Ambient amb)
              else (drawPile s, discardPile s)) as [dp0 dc0]. simpl in Hrd.
    destruct dp0 as [|card dp1]; simpl in H; [discriminate|].
    destruct (map_at _ _ (players s) !! currentPlayerIndex s) eqn:Hme; [|discriminate].
    simpl in H. injection H as <-. simpl.
    split; [exists []; rewrite app_nil_r; reflexivity|]. intros _ Hc. rewrite <- Hc.
    assert (Hlt : (currentPlayerIndex s < length (players s))%nat).
    { apply lookup_lt_Some in Hme. rewrite map_at_length in Hme. exact Hme. }
    rewrite map_at_hands_add by exact Hlt.
    transitivity (concat (map hand (players s)) ++ ((card :: dp1) ++ dc0) ++ concat (map meld_cards (melds s)));
      [solve_Permutation|]. rewrite Hrd. solve_Permutation.
  - unfold onDrawFromDiscard. intros H. left.
    destruct (negb (canDraw s)); [injection H as <-; apply Hsame; reflexivity|].
    destruct (Nat.eqb (length (discardPile s)) 0); [injection H as <-; apply Hsame; reflexivity|].
    unfold takeDiscardTop in H.
    destruct (last (discardPile s)) as [card|] eqn:Hl; [|discriminate]. simpl in H.
    destruct (map_at _ _ (players s) !! currentPlayerIndex s) eqn:Hme; [|discriminate].
    simpl in H. injection H as <-. simpl.
    split; [exists []; rewrite app_nil_r; reflexivity|]. intros _ Hc. rewrite <- Hc.
    assert (Hlt : (currentPlayerIndex s < length (players s))%nat).
    { apply lookup_lt_Some in Hme. rewrite map_at_length in Hme. exact Hme. }
    rewrite map_at_hands_add by exact Hlt.
    apply last_Some in Hl as [l' Hl']. rewrite Hl', removelast_last. solve_Permutation.
  - unfold onSubmitMeld. intros H. left.
    destruct (negb (canMeld s)); [injection H as <-; apply Hsame; reflexivity|].
    destruct (current_player s) as [me|] eqn:Hme; [|discriminate]. cbn [mbind option_bind] in H.
    set (cards := selected_from_hand (hand me) (selectedCardIds s)) in H.
    destruct (Nat.eqb (length cards) 0); [injection H as <-; apply Hsame; reflexivity|].
    match type of H with context [match ?e with pair _ _ => _ end] => destruct e as [type result] end.
    destruct result as [|reason]; [|injection H as <-; apply Hsame; reflexivity].
    destruct (Nat.ltb _ 1); [injection H as <-; apply Hsame; reflexivity|].
    injection H as <-. simpl. rewrite !map_app. split; [eexists; reflexivity|].
    intros _ Hc. rewrite <- Hc. rewrite concat_app. simpl. rewrite app_nil_r.
    pose proof (remove_selected_perm (hand me) (selectedCardIds s)
                  (reachable_hand_ids s me Hr Hme) (reachable_selected_nodup s Hr)) as Hp.
    fold cards in Hp.
    rewrite <- (map_at_hands_perm_app (set_hand (remove_cards (hand me) cards)) cards
                  (currentPlayerIndex s) (players s) me Hme Hp).
    solve_Permutation.
  - unfold onLayoffToMeld. intros H. left.
    destruct (negb (canAct s) || negb (canMeld s)); [injection H as <-; apply Hsame; reflexivity|].
    destruct (current_player s) as [me|] eqn:Hme; [|discriminate]. cbn [mbind option_bind] in H.
    destruct (Nat.eqb (length (selectedCardIds s)) 0); [injection H as <-; apply Hsame; reflexivity|].
    set (added := selected_from_hand (hand me) (selectedCardIds s)) in H.
    destruct (Nat.eqb (length added) 0); [injection H as <-; apply Hsame; reflexivity|].
    destruct (_ <? 1); [injection H as <-; apply Hsame; reflexivity|].
    destruct (find (fun m => String.eqb (meld_id m) mid) (melds s)) as [target|] eqn:Hf;
      [|injection H as <-; apply Hsame; reflexivity].
    destruct (validateLayoff _ _ _ _) as [|reason]; [|injection H as <-; apply Hsame; reflexivity].
    injection H as <-. simpl. rewrite layoff_meld_ids.
    split; [exists []; rewrite app_nil_r; reflexivity|].
    intros Hnd Hc. rewrite <- Hc.
    apply find_some in Hf as [Htin Htid]. apply String.eqb_eq in Htid.
    rewrite layoff_melds_perm by (try assumption; rewrite <- Htid; apply in_map, Htin).
    pose proof (remove_selected_perm (hand me) (selectedCardIds s)
                  (reachable_hand_ids s me Hr Hme) (reachable_selected_nodup s Hr)) as Hp.
    fold added in Hp.
    rewrite <- (map_at_hands_perm_app (set_hand (remove_cards (hand me) added)) added
                  (currentPlayerIndex s) (players s) me Hme Hp).
    solve_Permutation.
  - unfold onDiscardSelected. intros H. left.
    destruct (negb (canDiscard s)); [injection H as <-; apply Hsame; reflexivity|].
    destruct (current_player s) as [me|] eqn:Hme; [|discriminate]. cbn [mbind option_bind] in H.
    destruct (selectedCardIds s) as [|cid' [|? ?]] eqn:Hsel;
      [injection H as <-; apply Hsame; reflexivity| |injection H as <-; apply Hsame; reflexivity].
    destruct (find _ (hand me)) as [card|] eqn:Hf; [|injection H as <-; apply Hsame; reflexivity].
    cbv zeta in H.
    match type of H with context [afterDiscard ?b ?p ?n] =>
      pose proof (afterDiscard_table b p n) as Ht;
      destruct (afterDiscard_melds_selected b p n) as [Hm _];
      set (r := afterDiscard b p n) in * end.
    assert (Hr' : (exists extra, map meld_id (melds r) = map meld_id (melds s) ++ extra) /\
            (NoDup (map meld_id (melds s)) ->
             (concat (map hand (players s)) ++ drawPile s ++ discardPile s) ++ concat (map meld_cards (melds s)) ≡ₚ defaultDeck ->
             (concat (map hand (players r)) ++ drawPile r ++ discardPile r) ++ concat (map meld_cards (melds r)) ≡ₚ defaultDeck)).
    { rewrite Hm. simpl. split; [exists []; rewrite app_nil_r; reflexivity|].
      intros _ Hc. unfold table_cards in Ht. rewrite Ht. simpl. rewrite <- Hc. unfold discardOne.
      pose proof (discard_perm (hand me) cid' card (reachable_hand_ids s me Hr Hme) Hf) as Hp.
      rewrite <- (map_at_hands_perm_app
                    (set_hand (List.filter (fun c => negb (String.eqb (card_id c) cid')) (hand me)))
                    [card] (currentPlayerIndex s) (players s) me Hme Hp).
      solve_Permutation. }
    destruct (negb (truthy (message r))).
    + destruct (players r !! currentPlayerIndex r); cbn in H; [|discriminate].
      injection H as <-. exact Hr'.
    + injection H as <-. exact Hr'.
  - unfold onNextRound, nextRound. intros H.
    destruct (_ <=? _); [injection H as <-; left; apply Hsame; reflexivity|].
    destruct (getRoundRule _) as [rl|]; [|discriminate]. simpl in H.
    match type of H with context [deal ?dk ?n ?h ?sd] =>
      destruct (deal dk n h sd) as [d|] eqn:Ed; [|discriminate] end.
    simpl in H. injection H as <-.
    destruct (deal_some _ _ _ _ _ Ed) as [L P].
    right. simpl. rewrite app_nil_r.
    destruct (zip_with_set_hand (dealt_hands d) (players s) L) as [Z1 _].
    rewrite Z1, P. apply shuffle_perm.
Qed.

(** X15: In every state reachable from newGame through the GameView handlers, the selected card ids have no duplicates. *)
Theorem reachable_selection_NoDup (s : GameState) :
  reachable s -> NoDup (selectedCardIds s).
Proof. apply reachable_selected_nodup. Qed.

(** X16: In every state reachable from newGame through the GameView handlers, if the melds have distinct ids, the cards in hands, piles and melds together are a permutation of the two-deck set of 116 cards, and their ids are distinct. *)
Theorem reachable_cards_conserved (s : GameState) :
  reachable s -> NoDup (map meld_id (melds s)) ->
  cards_in_play s ≡ₚ defaultDeck /\ NoDup (map card_id (cards_in_play s)).
Proof.
  intros Hr Hnd.
  assert (Hc : cards_in_play s ≡ₚ defaultDeck).
  { revert Hnd. induction Hr as [o amb s _ Hnew | s s' Hr IH (a & _ & Hact)]; intros Hnd.
    - unfold cards_in_play. destruct (newGame_fresh _ _ _ Hnew) as [-> _]. simpl.
      rewrite app_nil_r. eapply newGame_table; eauto.
    - destruct (act_conserves a s s' Hr Hact) as [[(extra & He) Hstep]|Hc]; [|exact Hc].
      rewrite He in Hnd. apply NoDup_app in Hnd as [Hnd _]. apply Hstep; auto. }
  split; [exact Hc|]. rewrite (Permutation_map card_id Hc). apply defaultDeck_ids_NoDup.
Qed.

Lemma reachable_cards_conserved_witness :
  reachable p1_out /\ NoDup (map meld_id (melds p1_out)) /\
  cards_in_play p1_out ≡ₚ defaultDeck /\ NoDup (map card_id (cards_in_play p1_out)).
Proof.
  assert (Hr : reachable p1_out) by exact p1_out_reachable.
  assert (Hn : NoDup (map meld_id (melds p1_out))) by (vm_compute; apply NoDup_singleton).
  split; [exact Hr|]. split; [exact Hn|]. exact (reachable_cards_conserved p1_out Hr Hn).
Defined.

Lemma reachable_selection_NoDup_witness :
  reachable p1_all_selected /\ NoDup (selectedCardIds p1_all_selected).
Proof.
  assert (Hr : reachable p1_all_selected) by exact p1_all_selected_reachable.
  split; [exact Hr|]. exact (reachable_selection_NoDup p1_all_selected Hr).
Defined.

(* ------------------------------------------------------------------ *)
(** ** Further properties: players and the new game *)

Lemma Forall2_same_player_refl (ps : list PlayerState) : Forall2 same_player_no_lower ps ps.
Proof. induction ps; constructor; [repeat split; lia|assumption]. Qed.

Lemma Forall2_same_player_trans (ps qs rs : list PlayerState) :
  Forall2 same_player_no_lower ps qs -> Forall2 same_player_no_lower qs rs ->
  Forall2 same_player_no_lower ps rs.
Proof.
  intros H1. revert rs. induction H1 as [|p q ps qs Hpq _ IH]; intros rs H2; inversion H2; subst;
    constructor; [|auto].
  destruct Hpq as (? & ? & ?). match goal with H : same_player_no_lower q _ |- _ => destruct H as (? & ? & ?) end.
  repeat split; congruence || lia.
Qed.

Lemma Forall2_map_at_player (f : PlayerState -> PlayerState) (i : nat) (ps : list PlayerState) :
  (forall p, ps !! i = Some p -> same_player_no_lower p (f p)) ->
  Forall2 same_player_no_lower ps (map_at f i ps).
Proof.
  revert i; induction ps as [|p ps IH]; intros [|i] Hf; simpl; constructor;
    try apply Forall2_same_player_refl; try (apply Hf; reflexivity);
    try (repeat split; lia); apply IH; intros q Hq; apply Hf; exact Hq.
Qed.

Lemma scoreHand_nonneg (ranks : list Z) (rule : RoundRule) :
  Forall (fun r => 0 <= r) ranks -> 0 <= scoreHand ranks rule.
Proof.
  intros H. unfold scoreHand. rewrite scoreHand_acc.
  induction H as [|r ranks Hr _ IH]; simpl; [lia|].
  unfold cardPenalty_spec. destruct (r =? 0), (r =? wildRank rule); lia.
Qed.

Lemma Forall2_endRound_players (rl : RoundRule) (ps : list PlayerState) :
  (forall c, In c (concat (map hand ps)) -> 0 <= rank c) ->
  Forall2 same_player_no_lower ps
    (map (fun p => mkPlayer (player_id p) (name p) (hand p)
                     (score p + scoreHand (map rank (hand p)) rl)) ps).
Proof.
  induction ps as [|p ps IH]; intros Hr; simpl; constructor.
  - unfold same_player_no_lower; simpl. repeat split.
    assert (0 <= scoreHand (map rank (hand p)) rl); [|lia].
    apply scoreHand_nonneg, Forall_forall. intros r Hin.
    apply list_elem_of_In, in_map_iff in Hin as (c & <- & Hc).
    apply Hr. simpl. apply in_or_app. left. exact Hc.
  - apply IH. intros c Hc. apply Hr. simpl. apply in_or_app. right. exact Hc.
Qed.

Lemma Forall2_zip_set_hand (hs : list (list Card)) (ps : list PlayerState) :
  length hs = length ps -> Forall2 same_player_no_lower ps (zip_with set_hand hs ps).
Proof.
  revert ps; induction hs as [|h hs IH]; intros [|p ps] Hl; simpl in *; try lia; constructor.
  - unfold same_player_no_lower; simpl. repeat split; lia.
  - apply IH. lia.
Qed.

Lemma afterDiscard_players_cpi (st : GameState) (pid : string) (n : nat) :
  (players (afterDiscard st pid n) = players st \/
   players (afterDiscard st pid n) =
     map (fun p => mkPlayer (player_id p) (name p) (hand p)
                     (score p + scoreHand (map rank (hand p)) (rule st))) (players st)) /\
  (currentPlayerIndex (afterDiscard st pid n) = currentPlayerIndex st \/
   currentPlayerIndex (afterDiscard st pid n) =
     Nat.modulo (S (currentPlayerIndex st)) (length (players st))).
Proof.
  unfold afterDiscard, triggerOutIfNeeded, consumeOutTurnIfNeeded, endRound, advancePlayer.
  repeat (case_match; simpl); auto.
  all: split; [right; reflexivity|right; rewrite length_map; reflexivity].
Qed.

Lemma act_players (a : Action) (s s' : GameState) :
  (forall c, In c (concat (map hand (players s))) -> 0 <= rank c) ->
  act a s = Some s' ->
  Forall2 same_player_no_lower (players s) (players s') /\
  (currentPlayerIndex s' = currentPlayerIndex s \/
   currentPlayerIndex s' = Nat.modulo (S (currentPlayerIndex s)) (length (players s))).
Proof.
  intros Hrank Hact.
  assert (Hset : forall h p, same_player_no_lower p (set_hand h p)).
  { intros h p. unfold same_player_no_lower. simpl. repeat split; lia. }
  destruct a; simpl in Hact.
  9:{ unfold onDiscardSelected in Hact.
      destruct (negb (canDiscard s)); [injection Hact as <-; split; [apply Forall2_same_player_refl|auto]|].
      destruct (current_player s) as [me|] eqn:Hme; [|discriminate]. cbn [mbind option_bind] in Hact.
      destruct (selectedCardIds s) as [|cid [|? ?]];
        [injection Hact as <-; split; [apply Forall2_same_player_refl|auto]| |
         injection Hact as <-; split; [apply Forall2_same_player_refl|auto]].
      destruct (find _ (hand me)) as [card|] eqn:Hf;
        [|injection Hact as <-; split; [apply Forall2_same_player_refl|auto]].
      cbv zeta in Hact.
      match type of Hact with context [afterDiscard ?b ?p ?n] =>
        destruct (afterDiscard_players_cpi b p n) as [Hp Hc];
        set (r := afterDiscard b p n) in * end.
      assert (Hr : Forall2 same_player_no_lower (players s) (players r) /\
                   (currentPlayerIndex r = currentPlayerIndex s \/
                    currentPlayerIndex r = Nat.modulo (S (currentPlayerIndex s)) (length (players s)))).
      { simpl in Hp, Hc. rewrite map_at_length in Hc. split; [|exact Hc].
        assert (Hb := Forall2_map_at_player
                        (set_hand (List.filter (fun c => negb (String.eqb (card_id c) cid)) (hand me)))
                        (currentPlayerIndex s) (players s) (fun p _ => Hset _ p)).
        destruct Hp as [-> | ->]; [exact Hb|].
        eapply Forall2_same_player_trans; [exact Hb|]. apply Forall2_endRound_players.
        intros c Hin. apply Hrank.
        assert (Hsub := map_at_hands_discard
                          (set_hand (List.filter (fun c => negb (String.eqb (card_id c) cid)) (hand me)))
                          card (currentPlayerIndex s) (players s) me Hme).
        simpl in Hsub. specialize (Hsub (discard_hand_submseteq _ _ _ Hf)).
        apply list_elem_of_In. eapply elem_of_submseteq; [|exact Hsub].
        apply elem_of_app. left. apply list_elem_of_In, Hin. }
      destruct (negb (truthy (message r))).
      - destruct (players r !! currentPlayerIndex r); cbn in Hact; [|discriminate].
        injection Hact as <-. exact Hr.
      - injection Hact as <-. exact Hr. }
  all: try unfold onToggleSelect in Hact; try unfold onClearSelection in Hact;
       try unfold onSortRank in Hact; try unfold onSortSuit in Hact;
       try unfold onDrawFromDeck in Hact; try unfold onDrawFromDiscard in Hact;
       try unfold onSubmitMeld in Hact; try unfold onLayoffToMeld in Hact;
       try unfold onNextRound, nextRound in Hact.
  all: handler_cases.
  all: split; [|auto].
  all: try apply Forall2_same_player_refl.
  all: try (apply Forall2_map_at_player; intros; apply Hset).
  all: try (apply Forall2_zip_set_hand; match goal with Hd : deal _ _ _ _ = Some ?d |- _ =>
              destruct (deal_some _ _ _ _ _ Hd) as [L _]; exact L end).
Qed.

Lemma defaultDeck_ranks : Forall (fun c => 0 <= rank c <= 13) defaultDeck.
Proof. apply (bool_decide_eq_true_1 _). vm_compute. reflexivity. Qed.

Lemma reachable_table_sub (s : GameState) : reachable s -> table_cards s ⊆+ defaultDeck.
Proof.
  induction 1 as [o amb s _ Hnew | s s' _ IH (a & _ & Hact)].
  - apply Permutation_submseteq. eapply newGame_table; eauto.
  - destruct (act_table a s s' Hact) as [Hs|Hp].
    + etrans; eauto.
    + apply Permutation_submseteq, Hp.
Qed.

Lemma reachable_hand_ranks (s : GameState) :
  reachable s -> forall c, In c (concat (map hand (players s))) -> 0 <= rank c.
Proof.
  intros Hr c Hc. apply reachable_table_sub in Hr.
  assert (Hd : In c defaultDeck).
  { apply list_elem_of_In. eapply elem_of_submseteq; [|exact Hr].
    unfold table_cards. apply elem_of_app. left. apply list_elem_of_In, Hc. }
  pose proof defaultDeck_ranks as F. rewrite List.Forall_forall in F. apply F in Hd. lia.
Qed.

Lemma mk_players_props (i : nat) (names : list string) (hands : list (list Card)) :
  length (mk_players i names hands) = length names /\
  forall j p, mk_players i names hands !! j = Some p ->
    player_id p = "P" +:+ pretty (S (i + j)) /\ score p = 0.
Proof.
  revert i; induction names as [|nm names IH]; intros i; simpl.
  - split; [reflexivity|]. intros j p H. discriminate.
  - destruct (IH (S i)) as [L F]. split; [rewrite L; reflexivity|].
    intros [|j] p H; simpl in H.
    + injection H as <-. simpl. rewrite Nat.add_0_r. auto.
    + apply F in H. rewrite <- Nat.add_succ_comm. exact H.
Qed.

(** X17: From a reachable state, a GameView handler step keeps the players in the same order with the same ids and names, and never lowers a player's score. *)
Theorem ui_step_players (s s' : GameState) :
  reachable s -> ui_step s s' ->
  Forall2 (fun p q => player_id q = player_id p /\ name q = name p /\ score p <= score q)
          (players s) (players s').
Proof.
  intros Hr (a & _ & Hact).
  exact (proj1 (act_players a s s' (reachable_hand_ranks s Hr) Hact)).
Qed.

(** X18: In every reachable state there are at least two players, the current player index is in range, the i-th player (from 0) has id P(i+1), and every score is non-negative. *)
Theorem reachable_players (s : GameState) :
  reachable s ->
  (2 <= length (players s))%nat /\ (currentPlayerIndex s < length (players s))%nat /\
  forall i p, players s !! i = Some p -> player_id p = "P" +:+ pretty (S i) /\ 0 <= score p.
Proof.
  induction 1 as [o amb s _ Hnew | s s' Hr IH (a & _ & Hact)].
  - unfold newGame in Hnew. simpl in Hnew.
    destruct (Nat.ltb _ 2) eqn:Hlt; [discriminate|]. apply Nat.ltb_ge in Hlt.
    match type of Hnew with context [deal ?dk ?n ?h ?sd] =>
      destruct (deal dk n h sd) as [d|]; [|discriminate] end.
    simpl in Hnew. injection Hnew as <-. simpl.
    match goal with |- context [mk_players 0 ?nm ?hs] => destruct (mk_players_props 0 nm hs) as [L F] end.
    rewrite L. split; [exact Hlt|]. split; [lia|].
    intros i p Hp. apply F in Hp as [-> ->]. split; [reflexivity|lia].
  - destruct IH as (H2 & Hcpi & Hids).
    destruct (act_players a s s' (reachable_hand_ranks s Hr) Hact) as [F Hc].
    pose proof (Forall2_length _ _ _ F) as L. rewrite <- L.
    split; [exact H2|]. split.
    + destruct Hc as [-> | ->]; [exact Hcpi|]. apply Nat.mod_upper_bound. lia.
    + intros i q Hq. destruct (Forall2_lookup_r _ _ _ _ _ F Hq) as (p & Hp & Hid & _ & Hsc).
      destruct (Hids i p Hp) as [Hi Hs]. rewrite Hid. split; [exact Hi|lia].
Qed.

Lemma reachable_players_witness :
  reachable p1_out /\
  (2 <= length (players p1_out))%nat /\ (currentPlayerIndex p1_out < length (players p1_out))%nat /\
  forall i p, players p1_out !! i = Some p -> player_id p = "P" +:+ pretty (S i) /\ 0 <= score p.
Proof.
  assert (Hr : reachable p1_out) by exact p1_out_reachable.
  split; [exact Hr|]. exact (reachable_players p1_out Hr).
Defined.

Lemma ui_step_players_witness :
  reachable p2_last_discard /\ ui_step p2_last_discard round1_over /\
  Forall2 (fun p q => player_id q = player_id p /\ name q = name p /\ score p <= score q)
          (players p2_last_discard) (players round1_over).
Proof.
  assert (Hr : reachable p2_last_discard) by exact p2_last_discard_reachable.
  assert (Hs : ui_step p2_last_discard round1_over) by exact p2_last_discard_step.
  split; [exact Hr|]. split; [exact Hs|]. exact (ui_step_players _ _ Hr Hs).
Defined.

Lemma mk_players_names (i : nat) (names : list string) (hands : list (list Card)) :
  map name (mk_players i names hands) = names /\
  forall j p, mk_players i names hands !! j = Some p -> hand p = default [] (hands !! (i + j)%nat).
Proof.
  revert i; induction names as [|nm names IH]; intros i; simpl.
  - split; [reflexivity|]. intros j p H. discriminate.
  - destruct (IH (S i)) as [N F]. rewrite N. split; [reflexivity|].
    intros [|j] p H; simpl in H.
    + injection H as <-. simpl. rewrite Nat.add_0_r. reflexivity.
    + apply F in H. rewrite <- Nat.add_succ_comm. exact H.
Qed.

(** X19: newGame fails with fewer than two player names (default: two). With n >= 2 names and 3n <= 116 cards needed, it starts round 1 with rule (1, 3, 3), the given names, ids P1..Pn, zero scores, three cards per hand, player 0 to draw, no melds, no selection and no pending out. All 116 cards are on the table, and the discard pile holds one card when startDiscard is true or defaulted, and none otherwise. *)
Theorem newGame_setup (o : NewGameOptions) (ambient : nat -> nat) :
  let names := default ["Player 1"; "Player 2"] (opt_playerNames o) in
  ((length names < 2)%nat -> newGame o ambient = None) /\
  ((2 <= length names)%nat -> (3 * length names <= 116)%nat ->
   exists s, newGame o ambient = Some s /\
     round s = 1 /\ rule s = mkRoundRule 1 3 3 /\
     map name (players s) = names /\
     (forall i p, players s !! i = Some p ->
        player_id p = "P" +:+ pretty (S i) /\ score p = 0 /\ length (hand p) = 3%nat) /\
     currentPlayerIndex s = 0%nat /\ melds s = [] /\ selectedCardIds s = [] /\
     turnPhase s = NEED_DRAW /\ status s = PLAYING /\
     outTriggeredByPlayerId s = None /\ turnsRemainingAfterOut s = None /\
     table_cards s ≡ₚ defaultDeck /\
     length (discardPile s) = (if default true (ng_startDiscard o) then 1 else 0)%nat).
Proof.
  intros names. split.
  - intros Hlt. unfold newGame. simpl. fold names. apply Nat.ltb_lt in Hlt. rewrite Hlt. reflexivity.
  - intros H2 H3.
    set (rng := match ng_seed o with Some seed => Seeded seed | None => Ambient ambient end).
    destruct (deal_spec (shuffle defaultDeck rng) (length names) 3 (default true (ng_startDiscard o)))
      as (d & Ed & L & F & P).
    { rewrite (Permutation_length (shuffle_perm _ _)), defaultDeck_length. simpl. lia. }
    assert (Hnew : newGame o ambient =
      Some (mkState 1 (mkRoundRule 1 3 3) (mk_players 0 names (dealt_hands d)) 0
            (dealt_drawPile d) (dealt_discardPile d) [] [] NEED_DRAW None None PLAYING
            (Some "Game started. Draw 1 card to begin your turn."))).
    { unfold newGame. simpl. fold names. destruct (Nat.ltb (length names) 2) eqn:E;
        [apply Nat.ltb_lt in E; lia|]. fold rng. change (1 + 2) with 3. rewrite Ed. reflexivity. }
    eexists. split; [exact Hnew|]. simpl.
    destruct (mk_players_props 0 names (dealt_hands d)) as [_ Fp].
    destruct (mk_players_names 0 names (dealt_hands d)) as [Nn Fh].
    split; [reflexivity|]. split; [reflexivity|]. split; [exact Nn|]. split.
    { intros i p Hp. destruct (Fp i p Hp) as [Hi Hs]. split; [exact Hi|]. split; [exact Hs|].
      rewrite (Fh i p Hp). simpl.
      assert (Hi' : (i < length names)%nat).
      { apply lookup_lt_Some in Hp. destruct (mk_players_props 0 names (dealt_hands d)) as [Lm _].
        rewrite Lm in Hp. exact Hp. }
      destruct (lookup_lt_is_Some_2 (dealt_hands d) i) as [h Hh]; [lia|]. rewrite Hh. simpl.
      rewrite List.Forall_forall in F. apply F. apply list_elem_of_In. eapply list_elem_of_lookup_2. exact Hh. }
    do 7 (split; [reflexivity|]). split.
    + eapply newGame_table. exact Hnew.
    + (* the discard pile *)
      unfold deal in Ed.
      destruct (deal_rounds _ _ _ _) as [[hs idx]|] eqn:Er; [|discriminate]. simpl in Ed.
      pose proof (deal_rounds_some _ _ _ _ _ _ Er) as [Lr Pr].
      rewrite repeat_length in Lr.
      assert (Hc : concat (repeat ([] : list Card) (length names)) = []) by
        (clear; induction (length names) as [|n IHn]; simpl; auto).
      rewrite Hc, drop_0 in Pr.
      pose proof (deal_rounds_lengths _ _ _ _ _ _ 0 Er) as Fr.
      assert (Hlen : length (concat hs) = (3 * length names)%nat).
      { rewrite length_concat. 
        assert (Fr' : Forall (fun h => length h = 3%nat) hs).
        { apply Fr. apply Forall_forall. intros h Hh. apply list_elem_of_In, repeat_spec in Hh. subst. reflexivity. }
        rewrite <- Lr. clear -Fr'. induction Fr' as [|h hs Hh _ IH]; simpl; lia. }
      apply Permutation_length in Pr. rewrite app_nil_l, length_app, Hlen, (Permutation_length (shuffle_perm _ _)), defaultDeck_length in Pr.
      destruct (drop idx (shuffle defaultDeck rng)) as [|c rest] eqn:Edr.
      * simpl in Pr. lia.
      * destruct (default true (ng_startDiscard o)); injection Ed as <-; reflexivity.
Qed.

(* ------------------------------------------------------------------ *)
(** ** Further properties: dealing and the decks *)

Lemma give_each_layout (deck : list Card) (hs : list (list Card)) (index : nat) :
  (index + length hs <= length deck)%nat ->
  exists hs', give_each deck hs index = Some (hs', (index + length hs)%nat) /\
    length hs' = length hs /\
    forall p hd, hs !! p = Some hd ->
      exists c, deck !! (index + p)%nat = Some c /\ hs' !! p = Some (hd ++ [c]).
Proof.
  revert index; induction hs as [|h hs IH]; intros index Hlen; simpl.
  - exists []. rewrite Nat.add_0_r. split; [reflexivity|]. split; [reflexivity|].
    intros p hd H. discriminate.
  - destruct (lookup_lt_is_Some_2 deck index) as [c Hc]; [simpl in Hlen; lia|].
    rewrite Hc. simpl.
    destruct (IH (S index)) as (hs' & E & L & F); [simpl in Hlen; lia|].
    rewrite E. simpl. rewrite Nat.add_succ_r.
    eexists; split; [reflexivity|]. split; [simpl; congruence|].
    intros [|p] hd Hp; simpl in Hp.
    + injection Hp as <-. exists c. rewrite Nat.add_0_r. auto.
    + destruct (F p hd Hp) as (c' & Hc' & Hp'). exists c'.
      rewrite <- Nat.add_succ_comm. auto.
Qed.

Lemma deal_rounds_layout (deck : list Card) (n : nat) (k : nat) :
  forall (m : nat) (hs : list (list Card)),
  dealt_round_robin deck n m hs -> ((m + k) * n <= length deck)%nat ->
  exists hs', deal_rounds deck hs (m * n) k = Some (hs', ((m + k) * n)%nat) /\
    dealt_round_robin deck n (m + k) hs'.
Proof.
  induction k as [|k IH]; intros m hs [L F] Hlen; simpl.
  - exists hs. rewrite !Nat.add_0_r. split; [reflexivity|]. split; [exact L|exact F].
  - destruct (give_each_layout deck hs (m * n)) as (hs1 & E1 & L1 & F1); [rewrite L; nia|].
    rewrite E1. simpl. rewrite L.
    replace (m * n + n)%nat with (S m * n)%nat by lia.
    destruct (IH (S m) hs1) as (hs2 & E2 & R2).
    + split; [congruence|]. intros p Hp.
      destruct (F p Hp) as (hd & Hhd & Lhd & Ehd).
      destruct (F1 p hd Hhd) as (c & Hc & Hp1).
      exists (hd ++ [c]). split; [exact Hp1|]. split; [rewrite length_app; simpl; lia|].
      intros j Hj. destruct (decide (j < m)%nat) as [Hjm|Hjm].
      * rewrite lookup_app_l by lia. apply Ehd, Hjm.
      * assert (j = m) by lia. subst j. rewrite lookup_app_r by lia.
        rewrite Lhd, Nat.sub_diag. simpl. rewrite Hc. f_equal.
    + lia.
    + replace (m + S k)%nat with (S m + k)%nat by lia. exists hs2. split; [exact E2|exact R2].
Qed.

(** X20: If the deck has at least playerCount * handSize cards, deal succeeds and gives playerCount hands of handSize cards each. Card j of hand p is deck[j * playerCount + p]. The draw pile is the rest of the deck, except that with startDiscard a non-empty rest gives its first card to the discard pile. *)
Theorem deal_layout (deck : list Card) (n : nat) (handSize : Z) (startDiscard : bool) :
  (n * Z.to_nat handSize <= length deck)%nat ->
  exists d, deal deck n handSize startDiscard = Some d /\
    length (dealt_hands d) = n /\
    (forall p, (p < n)%nat -> exists hd, dealt_hands d !! p = Some hd /\
       length hd = Z.to_nat handSize /\
       forall j, (j < Z.to_nat handSize)%nat -> hd !! j = deck !! (j * n + p)%nat) /\
    (let rest := drop (n * Z.to_nat handSize) deck in
     match startDiscard, rest with
     | true, c :: r => dealt_drawPile d = r /\ dealt_discardPile d = [c]
     | _, _ => dealt_drawPile d = rest /\ dealt_discardPile d = []
     end).
Proof.
  intros Hlen. unfold deal.
  destruct (deal_rounds_layout deck n (Z.to_nat handSize) 0 (repeat [] n)) as (hs & E & L & F).
  { split; [apply repeat_length|]. intros p Hp. exists []. split.
    { clear -Hp. revert p Hp; induction n as [|n IHn]; intros [|p] Hp; simpl; try lia; auto.
      apply IHn. lia. }
    split; [reflexivity|]. intros j Hj. lia. }
  { simpl. lia. }
  simpl in E. rewrite E. simpl. simpl in F.
  replace (Z.to_nat handSize * n)%nat with (n * Z.to_nat handSize)%nat by lia.
  destruct (drop (n * Z.to_nat handSize) deck) as [|c rest] eqn:Ed; [|destruct startDiscard].
  all: eexists; split; [reflexivity|]; simpl; split; [exact L|]; split; [exact F|].
  all: try destruct startDiscard; auto.
Qed.

Lemma deal_layout_witness :
  (2 * Z.to_nat 3 <= length defaultDeck)%nat /\
  exists d, deal defaultDeck 2 3 true = Some d /\
    length (dealt_hands d) = 2%nat /\
    (forall p, (p < 2)%nat -> exists hd, dealt_hands d !! p = Some hd /\
       length hd = Z.to_nat 3 /\
       forall j, (j < Z.to_nat 3)%nat -> hd !! j = defaultDeck !! (j * 2 + p)%nat) /\
    (let rest := drop (2 * Z.to_nat 3) defaultDeck in
     match true, rest with
     | true, c :: r => dealt_drawPile d = r /\ dealt_discardPile d = [c]
     | _, _ => dealt_drawPile d = rest /\ dealt_discardPile d = []
     end).
Proof.
  assert (H : (2 * Z.to_nat 3 <= length defaultDeck)%nat) by (vm_compute; lia).
  split; [exact H|]. exact (deal_layout defaultDeck 2 3 true H).
Defined.

Lemma push_ranks_shape (d : Z) (s : Suit) (ranks : list Z) (out : list Card) :
  exists added, push_ranks d s ranks out = out ++ added /\ length added = length ranks /\
    Forall (fun c => suit c = s /\ In (rank c) ranks /\ deckIndex c = d) added.
Proof.
  revert out; induction ranks as [|r rs IH]; intros out; simpl.
  - exists []. rewrite app_nil_r. auto.
  - destruct (IH (out ++ [mkCard (normal_id d s r (length out)) s r d])) as (added & E & L & F).
    exists (mkCard (normal_id d s r (length out)) s r d :: added).
    rewrite E, <- (assoc_L (++)). split; [reflexivity|]. split; [simpl; congruence|].
    constructor; [simpl; auto|]. eapply Forall_impl; [exact F|]. simpl. intros c (? & ? & ?). auto.
Qed.

Lemma push_suits_shape (d : Z) (suits : list Suit) (ranks : list Z) (out : list Card) :
  exists added, push_suits d suits ranks out = out ++ added /\
    length added = (length suits * length ranks)%nat /\
    Forall (fun c => In (suit c) suits /\ In (rank c) ranks /\ deckIndex c = d) added.
Proof.
  revert out; induction suits as [|s ss IH]; intros out; simpl.
  - exists []. rewrite app_nil_r. auto.
  - destruct (push_ranks_shape d s ranks out) as (a1 & E1 & L1 & F1).
    destruct (IH (push_ranks d s ranks out)) as (a2 & E2 & L2 & F2).
    exists (a1 ++ a2). rewrite E2, E1, (assoc_L (++)). split; [reflexivity|].
    split; [rewrite length_app; lia|]. apply Forall_app. split.
    + eapply Forall_impl; [exact F1|]. simpl. intros c (-> & ? & ?). auto.
    + eapply Forall_impl; [exact F2|]. simpl. intros c (? & ? & ?). auto.
Qed.

Lemma push_jokers_shape (d : Z) (k : nat) (out : list Card) :
  exists added, push_jokers d k out = out ++ added /\ length added = k /\
    Forall (fun c => suit c = STARS /\ rank c = 0 /\ deckIndex c = d) added.
Proof.
  revert out; induction k as [|k IH]; intros out; simpl.
  - exists []. rewrite app_nil_r. auto.
  - destruct (IH (out ++ [mkCard (joker_id d (length out)) STARS 0 d])) as (added & E & L & F).
    exists (mkCard (joker_id d (length out)) STARS 0 d :: added).
    rewrite E, <- (assoc_L (++)). split; [reflexivity|]. split; [simpl; congruence|].
    constructor; [simpl; auto|exact F].
Qed.

Lemma push_decks_shape (k : nat) (d : Z) (suits : list Suit) (ranks : list Z) (j : Z) (out : list Card) :
  exists added, push_decks k d suits ranks j out = out ++ added /\
    length added = (k * (length suits * length ranks + Z.to_nat j))%nat /\
    Forall (fun c => ((In (suit c) suits /\ In (rank c) ranks) \/ (suit c = STARS /\ rank c = 0)) /\
                     d <= deckIndex c < d + Z.of_nat k) added /\
    (~ In 0 ranks -> length (List.filter (fun c => rank c =? 0) added) = (k * Z.to_nat j)%nat).
Proof.
  revert d out; induction k as [|k IH]; intros d out; simpl.
  - exists []. rewrite app_nil_r. auto.
  - destruct (push_suits_shape d suits ranks out) as (a1 & E1 & L1 & F1).
    destruct (push_jokers_shape d (Z.to_nat j) (push_suits d suits ranks out)) as (a2 & E2 & L2 & F2).
    destruct (IH (d + 1) (push_jokers d (Z.to_nat j) (push_suits d suits ranks out)))
      as (a3 & E3 & L3 & F3 & C3).
    exists (a1 ++ a2 ++ a3). rewrite E3, E2, E1, <- !(assoc_L (++)). split; [reflexivity|].
    split; [rewrite !length_app; lia|]. split.
    + apply Forall_app. split; [|apply Forall_app; split].
      * eapply Forall_impl; [exact F1|]. simpl. intros c (? & ? & ->). split; [auto|lia].
      * eapply Forall_impl; [exact F2|]. simpl. intros c (? & ? & ->). split; [auto|lia].
      * eapply Forall_impl; [exact F3|]. simpl. intros c (? & ?). split; [auto|lia].
    + intros H0. rewrite !List.filter_app, !length_app, C3 by exact H0.
      rewrite List.Forall_forall in F1, F2.
      rewrite (filter_none _ a1), (filter_all _ a2).
      * simpl. lia.
      * intros c Hc. destruct (F2 c Hc) as (_ & -> & _). reflexivity.
      * intros c Hc. destruct (F1 c Hc) as (_ & Hr & _). apply Z.eqb_neq. intros E.
        rewrite E in Hr. contradiction.
Qed.

(** X21: createDecks returns decks * (suits * ranks + jokersPerDeck) cards, counting a negative count as zero. Every card has a given suit and rank, or is a STARS joker of rank 0, and has a deck index from 1 to decks. When the ranks do not include 0, there are exactly decks * jokersPerDeck cards of rank 0. *)
Theorem createDecks_shape (suits : list Suit) (ranks : list Z) (decks jokersPerDeck : Z) :
  let deck := createDecks suits ranks decks jokersPerDeck in
  length deck = (Z.to_nat decks * (length suits * length ranks + Z.to_nat jokersPerDeck))%nat /\
  Forall (fun c => ((In (suit c) suits /\ In (rank c) ranks) \/ (suit c = STARS /\ rank c = 0)) /\
                   1 <= deckIndex c <= decks) deck /\
  (~ In 0 ranks ->
   length (List.filter (fun c => rank c =? 0) deck) = (Z.to_nat decks * Z.to_nat jokersPerDeck)%nat).
Proof.
  unfold createDecks. simpl.
  destruct (push_decks_shape (Z.to_nat decks) 1 suits ranks jokersPerDeck []) as (added & E & L & F & C).
  rewrite E. simpl. split; [exact L|]. split; [|exact C].
  eapply Forall_impl; [exact F|]. simpl. intros c (? & ?). split; [auto|].
  destruct (Z.le_gt_cases 0 decks); [rewrite Z2Nat.id in * by lia; lia|].
  replace (Z.to_nat decks) with 0%nat in * by lia. simpl in *. lia.
Qed.
